(** * The OPF metadata resolver of opf.js

    The class [OPF] reads a parsed EPUB package document and resolves its
    titles, creators, identifiers, manifest, spine and cover image.  Each
    method is translated below under its own name.  [null] and [undefined]
    are [None]; a JavaScript object that the code uses as a dictionary is
    the finite map of its own properties, and a lookup under a key that
    comes from the document also finds what the object inherits from
    [Object.prototype]; a method that can raise returns a [result]. *)

From Stdlib Require Import NArith ZArith Ascii String List Sorted.
From stdpp Require Import gmap list strings.

Open Scope N_scope.
Open Scope list_scope.
Open Scope stdpp_scope.

(** ** JavaScript strings

    A JavaScript string is a sequence of UTF-16 code units; [length], the
    regular expressions and the comparisons of the code all work on code
    units. *)

Abbreviation jsstring := (list N).

Fixpoint js (s : string) : jsstring :=
  match s with
  | EmptyString => []
  | String a r => N_of_ascii a :: js r
  end.

Arguments js : simpl never.

(** A string is truthy when it is not empty. *)
Definition truthy (s : jsstring) : bool :=
  match s with [] => false | _ => true end.

(** [!x] for a value that is a string, [null] or [undefined]. *)
Definition present (o : option jsstring) : bool :=
  match o with Some s => truthy s | None => false end.

Definition isSome {A} (o : option A) : bool :=
  match o with Some _ => true | None => false end.

Definition streq (a b : jsstring) : bool := bool_decide (a = b).

(** The class [\d] (no [u] flag): the ten ASCII digits. *)
Definition isDigit (c : N) : bool := (48 <=? c) && (c <=? 57).

(** The class [\s] of ECMAScript: white space and line terminators. *)
Definition isSpace (c : N) : bool :=
  ((9 <=? c) && (c <=? 13)) || (c =? 32) || (c =? 160) || (c =? 5760)
  || ((8192 <=? c) && (c <=? 8202)) || (c =? 8232) || (c =? 8233)
  || (c =? 8239) || (c =? 8287) || (c =? 12288) || (c =? 65279).

(** The code units that [.] does not match. *)
Definition isLineTerminator (c : N) : bool :=
  (c =? 10) || (c =? 13) || (c =? 8232) || (c =? 8233).

Definition colon : N := 58.
Definition dot : N := 46.

(** [text.replace(/[^\d]+/g, '')]: every run of non-digits is removed. *)
Definition digitsOnly (text : jsstring) : jsstring := List.filter isDigit text.

(** [attr.replace(/^.+:/, '')].  The match starts at index 0, [.+] is greedy
    and does not cross a line terminator, so the text removed ends at the
    last colon that has at least one unit before it and no line terminator
    before it.  [afterLastColon r] is the rest after that colon when the
    colon lies in [r]. *)
Fixpoint afterLastColon (s : jsstring) : option jsstring :=
  match s with
  | [] => None
  | c :: r =>
      if isLineTerminator c then None
      else match afterLastColon r with
           | Some rest => Some rest
           | None => if c =? colon then Some r else None
           end
  end.

Definition stripScheme (s : jsstring) : jsstring :=
  match s with
  | [] => s
  | c :: r =>
      if isLineTerminator c then s
      else match afterLastColon r with Some rest => rest | None => s end
  end.

(** [href.replace(/.*\./g, '')].  In every maximal run without a line
    terminator the first match runs from the start of the run to its last
    dot, and nothing after it matches.  The second component tells whether
    the current run of the argument holds a dot. *)
Fixpoint dropThroughDots (s : jsstring) : jsstring * bool :=
  match s with
  | [] => ([], false)
  | c :: r =>
      let '(out, dotted) := dropThroughDots r in
      if isLineTerminator c then (c :: out, false)
      else if dotted then (out, true)
      else if c =? dot then (out, true)
      else (c :: out, false)
  end.

(** [toLowerCase] of one code unit.  It is exact on ASCII and on the two
    units outside ASCII whose lower case holds an ASCII unit (U+212A and
    U+0130); every other unit maps outside ASCII in JavaScript and is left
    in place here, which no comparison with an ASCII word can tell apart. *)
Definition lowerUnit (c : N) : jsstring :=
  if (65 <=? c) && (c <=? 90) then [c + 32]
  else if c =? 8490 then [107]
  else if c =? 304 then [105; 775]
  else [c].

Definition toLowerCase (s : jsstring) : jsstring := flat_map lowerUnit s.

(** [toUpperCase] of one code unit, exact on ASCII and on the units outside
    ASCII whose upper case is a single ASCII letter (U+0131 and U+017F);
    the other units are left in place, as for [lowerUnit]: their upper case
    holds two equal letters or a unit that no table word holds. *)
Definition upperUnit (c : N) : jsstring :=
  if (97 <=? c) && (c <=? 122) then [c - 32]
  else if c =? 305 then [73]
  else if c =? 383 then [83]
  else [c].

Definition toUpperCase (s : jsstring) : jsstring := flat_map upperUnit s.

(** [/^isbn/i]: without the [u] flag a unit outside ASCII never matches an
    ASCII letter, so the test is an ASCII case-insensitive prefix test. *)
Definition asciiLower (c : N) : N :=
  if (65 <=? c) && (c <=? 90) then c + 32 else c.

Definition isbnRegex (s : jsstring) : bool :=
  match s with
  | a :: b :: c :: d :: _ =>
      streq [asciiLower a; asciiLower b; asciiLower c; asciiLower d] (js "isbn")
  | _ => false
  end.

(** Splitting at the maximal runs of separator units: every run separates
    two pieces; a run at the start or at the end leaves an empty piece
    there, and the empty string gives one empty piece.  [prevSep] tells
    that the unit before the argument was a separator. *)
Fixpoint splitRuns (isSep : N -> bool) (prevSep : bool) (s : jsstring) : list jsstring :=
  match s with
  | [] => [[]]
  | c :: r =>
      if isSep c then
        if prevSep then splitRuns isSep true r else [] :: splitRuns isSep true r
      else
        match splitRuns isSep false r with
        | piece :: pieces => (c :: piece) :: pieces
        | [] => [[c]]
        end
  end.

(** [name.split(/\s+/)]. *)
Definition split (s : jsstring) : list jsstring := splitRuns isSpace false s.

(** [s.indexOf(c)], -1 when [c] does not occur. *)
Fixpoint indexOf (c : N) (s : jsstring) : Z :=
  match s with
  | [] => (-1)%Z
  | d :: r =>
      if d =? c then 0%Z
      else let i := indexOf c r in if (i <? 0)%Z then (-1)%Z else (i + 1)%Z
  end.

(** [s.slice(i)] for [0 <= i]. *)
Definition slice (i : Z) (s : jsstring) : jsstring := drop (Z.to_nat i) s.

(** [parts.join(sep)]. *)
Fixpoint join (sep : jsstring) (parts : list jsstring) : jsstring :=
  match parts with
  | [] => []
  | [p] => p
  | p :: rest => p ++ sep ++ join sep rest
  end.
(** ** Exceptions and the limits of the description

    [TypeError] is the error of reading a property of [null] or calling
    what is not a function; [SyntaxError] is the exception of that name
    that [querySelector] and [querySelectorAll] raise for a text that is
    not a selector.

    A run is [Unspecified] when it leaves what this development
    describes: it writes to an object that all dictionaries share
    ([Object.prototype] or a built-in function), compares numbers that
    [parseInt] has rounded, or hands the selector engine a text whose
    reading is not fixed here.  Nothing is stated about such a run. *)

Inductive JsError := TypeError | SyntaxError.

Inductive result (A : Type) :=
  | Ok (a : A)
  | Throw (e : JsError)
  | Unspecified.
Arguments Ok {A} a.
Arguments Throw {A} e.
Arguments Unspecified {A}.

Definition bind {A B} (r : result A) (k : A -> result B) : result B :=
  match r with
  | Ok a => k a
  | Throw e => Throw e
  | Unspecified => Unspecified
  end.

Notation "x <- r ;; k" := (bind r (fun x => k))
  (at level 100, r at next level, right associativity).

(** A loop over a list whose turns can raise. *)
Fixpoint loop {A B} (step : A -> B -> result A) (els : list B) (a : A) : result A :=
  match els with
  | [] => Ok a
  | el :: rest => a' <- step a el ;; loop step rest a'
  end.

(** ** Objects used as dictionaries

    The dictionaries of the resolver are created by [{}], so they inherit
    the members of [Object.prototype].  None of them is falsy: eleven are
    functions and [__proto__] reads as [Object.prototype] itself. *)

Definition objectPrototypeKeys : list jsstring :=
  [ js "constructor"; js "__defineGetter__"; js "__defineSetter__";
    js "hasOwnProperty"; js "__lookupGetter__"; js "__lookupSetter__";
    js "isPrototypeOf"; js "propertyIsEnumerable"; js "toString";
    js "valueOf"; js "__proto__"; js "toLocaleString" ].

(** The key names a member of [Object.prototype]. *)
Definition inherited (key : jsstring) : bool :=
  existsb (streq key) objectPrototypeKeys.

Definition protoKey : jsstring := js "__proto__".

(** [o[key] = val] for a string [val].  Under [__proto__] the assignment
    runs the setter of [Object.prototype], which ignores a value that is
    neither an object nor [null]; under every other key it makes or
    changes a property of [o] itself. *)
Definition setProperty (o : gmap jsstring jsstring) (key val : jsstring)
    : gmap jsstring jsstring :=
  if streq key protoKey then o else <[key := val]> o.

(** What a dictionary of strings can give for a key: a string, or the
    member of [Object.prototype] of that name. *)
Inductive Value :=
  | Str (s : jsstring)
  | Member (key : jsstring).

(** [o[key]]: the object's own property first, then the inherited
    member; [None] is [undefined]. *)
Definition getProperty (o : gmap jsstring jsstring) (key : jsstring) : option Value :=
  match o !! key with
  | Some s => Some (Str s)
  | None => if inherited key then Some (Member key) else None
  end.

Definition truthyValue (v : option Value) : bool :=
  match v with
  | Some (Str s) => truthy s
  | Some (Member _) => true
  | None => false
  end.

(** ** The parsed document

    The parser is an external collaborator; the resolver sees a tree of
    elements with a tag name, attributes in source order and text. *)

#[warnings="-register-all"]
Inductive Node :=
  | TextNode (data : jsstring)
  | ElementNode (tag : jsstring) (attrs : list (jsstring * jsstring))
      (childNodes : list Node).

(** What the resolver reads of one element: [tagName], the attributes,
    [textContent], and the local names of its ancestors, nearest first. *)
Record Element := mkElement {
  tagName : jsstring;
  attributes : list (jsstring * jsstring);
  textContent : jsstring;
  ancestors : list jsstring
}.

Fixpoint afterFirstColon (s : jsstring) : option jsstring :=
  match s with
  | [] => None
  | c :: r => if c =? colon then Some r else afterFirstColon r
  end.

(** The local part of a qualified name: what a type selector compares. *)
Definition localName (tag : jsstring) : jsstring :=
  default tag (afterFirstColon tag).

Fixpoint nodeText (n : Node) : jsstring :=
  match n with
  | TextNode data => data
  | ElementNode _ _ kids =>
      (fix texts (l : list Node) : jsstring :=
         match l with [] => [] | k :: l' => nodeText k ++ texts l' end) kids
  end.

(** The elements of a subtree in document order. *)
Fixpoint elementsFrom (anc : list jsstring) (n : Node) : list Element :=
  match n with
  | TextNode _ => []
  | ElementNode tag attrs kids =>
      mkElement tag attrs (nodeText n) anc ::
      (fix below (l : list Node) : list Element :=
         match l with
         | [] => []
         | k :: l' => elementsFrom (localName tag :: anc) k ++ below l'
         end) kids
  end.

(** A document is its root node. *)
Abbreviation Document := Node.

Definition elements (doc : Document) : list Element := elementsFrom [] doc.

Fixpoint assoc (name : jsstring) (l : list (jsstring * jsstring)) : option jsstring :=
  match l with
  | [] => None
  | (k, v) :: rest => if streq k name then Some v else assoc name rest
  end.

Definition getAttribute (el : Element) (name : jsstring) : option jsstring :=
  assoc name (attributes el).

Definition getAttributeNames (el : Element) : list jsstring :=
  (attributes el).*1.

(** ** Selectors

    The selector engine is the parser's.  The selectors that the code
    writes out in full have three shapes, [package], [package > child] and
    [package > section tag[test]]; they are kept as terms, with the meaning
    that the CSS rules give them in an XML document (names and values are
    compared as they are written). *)

Inductive AttrTest :=
  | AnyAttributes
  | AttrEquals (name value : jsstring)
  | AttrIncludes (name token : jsstring).

Inductive Selector :=
  | SelPackage
  | SelPackageChild (child : jsstring)
  | SelUnder (section tag : jsstring) (test : AttrTest).

(** The separators of a token list in an attribute value. *)
Definition isCssSpace (c : N) : bool :=
  (c =? 32) || (c =? 9) || (c =? 10) || (c =? 12) || (c =? 13).

Definition attrTokens (value : jsstring) : list jsstring :=
  List.filter truthy (splitRuns isCssSpace false value).

Definition testAttr (t : AttrTest) (el : Element) : bool :=
  match t with
  | AnyAttributes => true
  | AttrEquals name value =>
      match getAttribute el name with
      | Some v => streq v value
      | None => false
      end
  | AttrIncludes name token =>
      match getAttribute el name with
      | Some v => existsb (streq token) (attrTokens v)
      | None => false
      end
  end.

(** Some ancestor is a [section] element whose parent is a [package]. *)
Fixpoint underPackage (section : jsstring) (anc : list jsstring) : bool :=
  match anc with
  | a :: rest =>
      (streq a section
       && match rest with p :: _ => streq p (js "package") | [] => false end)
      || underPackage section rest
  | [] => false
  end.

Definition selects (sel : Selector) (el : Element) : bool :=
  match sel with
  | SelPackage => streq (localName (tagName el)) (js "package")
  | SelPackageChild child =>
      streq (localName (tagName el)) child
      && match ancestors el with p :: _ => streq p (js "package") | [] => false end
  | SelUnder section tag test =>
      streq (localName (tagName el)) tag
      && underPackage section (ancestors el)
      && testAttr test el
  end.

Definition querySelectorAll (doc : Document) (sel : Selector) : list Element :=
  List.filter (selects sel) (elements doc).

Definition querySelector (doc : Document) (sel : Selector) : option Element :=
  head (querySelectorAll doc sel).

(** *** Selector texts with a part from the document

    Three selectors are made by putting a string between two pieces of
    text: a tag name after ["package > metadata "], an id between
    ["meta[refines=\#"] and ["]"], and an item id between ["item[id="] and
    ["]"].  The string is then read as CSS, not as a value.

    A string of letters, digits, hyphens and underscores that starts with
    a letter or an underscore is an identifier and stands for itself; after
    the escaped [#] any string of such units continues the identifier that
    [\#] begins.  In an attribute selector, a dot that follows such units
    (or nothing) ends the value where only [[]]] or a flag may follow, and
    the text is no selector.  Every other string is left [Unspecified]:
    it may be no selector, or one with another meaning (an escape, a
    quoted string, a second selector after a comma). *)

Definition isNameStart (c : N) : bool :=
  ((65 <=? c) && (c <=? 90)) || ((97 <=? c) && (c <=? 122)) || (c =? 95).

Definition isNameUnit (c : N) : bool :=
  isNameStart c || isDigit c || (c =? 45).

Definition isCssIdentifier (s : jsstring) : bool :=
  match s with
  | c :: r => isNameStart c && forallb isNameUnit r
  | [] => false
  end.

(** The first unit that is not a name unit is a dot. *)
Fixpoint dotAfterName (s : jsstring) : bool :=
  match s with
  | [] => false
  | c :: r => if c =? dot then true else isNameUnit c && dotAfterName r
  end.

(** The tag name that ["package > metadata " + tagName] selects. *)
Definition typeSelector (tagName : jsstring) : result jsstring :=
  if isCssIdentifier tagName then Ok tagName else Unspecified.

(** The value that ["[attr=" + value + "]"] compares with, or, after an
    escaped [#], that ["[attr=\#" + value + "]"] compares with behind the
    [#]. *)
Definition attributeValue (afterEscape : bool) (value : jsstring) : result jsstring :=
  if (if afterEscape then forallb isNameUnit value else isCssIdentifier value)
  then Ok value
  else if dotAfterName value then Throw SyntaxError
  else Unspecified.

(** ** getMetas and getMeta *)

(** [getMetas(tagName)]; [None] is the [null] of the colon guard. *)
Definition getMetas (doc : Document) (tagName0 : jsstring)
    : result (option (list Element)) :=
  let origTagName := tagName0 in
  let colonIndex := indexOf colon tagName0 in
  if (0 <=? colonIndex)%Z && (Z.of_nat (List.length tagName0) - 1 <=? colonIndex)%Z
  then Ok None
  else
    let tagName1 :=
      if (0 <=? colonIndex)%Z then slice (colonIndex + 1) tagName0 else tagName0 in
    name <- typeSelector tagName1 ;;
    let els := querySelectorAll doc (SelUnder (js "metadata") name AnyAttributes) in
    if (colonIndex <? 0)%Z then Ok (Some els)
    else Ok (Some (List.filter (fun el => streq (tagName el) origTagName) els)).

Inductive MetaValue :=
  | MetaText (text : jsstring)
  | MetaElement (el : Element).

(** [getMeta(tagName, getTextContent)]: [els.length] raises on [null]. *)
Definition getMeta (doc : Document) (tagName0 : jsstring) (getTextContent : bool)
    : result (option MetaValue) :=
  els <- getMetas doc tagName0 ;;
  match els with
  | None => Throw TypeError
  | Some [] => Ok None
  | Some (el :: _) =>
      if getTextContent then Ok (Some (MetaText (textContent el)))
      else Ok (Some (MetaElement el))
  end.

(** ** refineMeta *)

(** The object [refineMeta] builds: one dictionary when [flatten] is set,
    a dictionary of dictionaries keyed by scheme otherwise. *)
Inductive RefinementView :=
  | Flat (props : gmap jsstring jsstring)
  | Grouped (schemes : gmap jsstring (gmap jsstring jsstring)).

(** The second loop's [scheme[attr] = val].  In a flat view [scheme] is
    [o] itself.  In a grouped view it is [o[schemeName]], made empty first
    when [o[schemeName]] is falsy; when [o] has no such group of its own
    and the name is a member of [Object.prototype], that member is truthy,
    no group is made and the write goes to the shared member. *)
Definition viewSet (o : RefinementView) (schemeName attr val : jsstring)
    : result RefinementView :=
  match o with
  | Flat props => Ok (Flat (setProperty props attr val))
  | Grouped schemes =>
      match schemes !! schemeName with
      | Some group => Ok (Grouped (<[schemeName := setProperty group attr val]> schemes))
      | None =>
          if inherited schemeName then Unspecified
          else Ok (Grouped (<[schemeName := setProperty ∅ attr val]> schemes))
      end
  end.

(** [o[schemeName]] of a grouped view, for a name that is no member of
    [Object.prototype]. *)
Definition viewGroup (o : RefinementView) (schemeName : jsstring)
    : option (gmap jsstring jsstring) :=
  match o with
  | Flat _ => None
  | Grouped schemes => schemes !! schemeName
  end.

Definition noScheme : jsstring := js "noScheme".

(** The first loop: the element's own attributes, written to [scheme],
    the dictionary that is [o] in a flat view and [o.noScheme] in a
    grouped one. *)
Definition ownAttributeStep (element : Element) (dropSchemes : bool)
    (scheme : gmap jsstring jsstring) (attr : jsstring) : gmap jsstring jsstring :=
  let val := default [] (getAttribute element attr) in
  let attr := if dropSchemes then stripScheme attr else attr in
  setProperty scheme attr val.

(** The second loop: one refining [meta].  A flat view has one dictionary
    and the scheme is not read. *)
Definition refiningStep (flatten dropSchemes : bool)
    (o : RefinementView) (el : Element) : result RefinementView :=
  let scheme :=
    if flatten then noScheme
    else match getAttribute el (js "scheme") with
         | Some s => if truthy s then s else noScheme
         | None => noScheme
         end in
  match getAttribute el (js "property") with
  | None => Ok o
  | Some attr =>
      if negb (truthy attr) then Ok o
      else
        let attr := if dropSchemes then stripScheme attr else attr in
        viewSet o scheme attr (textContent el)
  end.

(** [refineMeta(element, flatten, dropSchemes)].  What it returns is a
    JavaScript value: [Some] of the object built. *)
Definition refineMeta (doc : Document) (element : Element) (flatten dropSchemes : bool)
    : result (option RefinementView) :=
  let attrs := getAttributeNames element in
  let scheme := fold_left (ownAttributeStep element dropSchemes) attrs ∅ in
  let o := if flatten then Flat scheme else Grouped {[ noScheme := scheme ]} in
  if negb (present (scheme !! js "id")) then Ok (Some o)
  else
    value <- attributeValue true (default [] (scheme !! js "id")) ;;
    let els := querySelectorAll doc
      (SelUnder (js "metadata") (js "meta") (AttrEquals (js "refines") (js "#" ++ value))) in
    o <- loop (refiningStep flatten dropSchemes) els o ;;
    Ok (Some o).

(** The flat view of a call with [flatten] set; [{}] stands for the other
    values, which such a call does not return. *)
Definition flatProps (v : option RefinementView) : gmap jsstring jsstring :=
  match v with
  | Some (Flat props) => props
  | _ => ∅
  end.

(** ** getTitles *)

Definition titleStep (doc : Document) (titles : gmap jsstring jsstring) (el : Element)
    : result (gmap jsstring jsstring) :=
  view <- refineMeta doc el true true ;;
  let title := flatProps view in
  if negb (present (title !! js "title-type")) then
    if negb (present (titles !! js "main"))
    then Ok (<[js "main" := textContent el]> titles)
    else Ok titles
  else
    Ok (setProperty titles (default [] (title !! js "title-type")) (textContent el)).

(** [getTitles()]; [for (el of els)] raises on [null]. *)
Definition getTitles (doc : Document) : result (gmap jsstring jsstring) :=
  els <- getMetas doc (js "dc:title") ;;
  match els with
  | None => Throw TypeError
  | Some els => loop (titleStep doc) els ∅
  end.

(** ** Creators *)

(** The integer that [parseInt] reads in a string, [None] when it reads
    none: after leading white space and a sign, an optional [0x] selects
    radix 16, and the longest run of digits of the radix is the number. *)
Definition digitValue (c : N) : option Z :=
  if (48 <=? c) && (c <=? 57) then Some (Z.of_N (c - 48))
  else if (97 <=? c) && (c <=? 122) then Some (Z.of_N (c - 87))
  else if (65 <=? c) && (c <=? 90) then Some (Z.of_N (c - 55))
  else None.

Fixpoint readDigits (radix : Z) (acc : option Z) (s : jsstring) : option Z :=
  match s with
  | [] => acc
  | c :: r =>
      match digitValue c with
      | Some d =>
          if (d <? radix)%Z
          then readDigits radix (Some (default 0 acc * radix + d)%Z) r
          else acc
      | None => acc
      end
  end.

Fixpoint trimStart (s : jsstring) : jsstring :=
  match s with
  | c :: r => if isSpace c then trimStart r else s
  | [] => []
  end.

Definition integerPrefix (s : jsstring) : option Z :=
  let s := trimStart s in
  let '(sign, s) :=
    match s with
    | 45 :: r => ((-1)%Z, r)
    | 43 :: r => (1%Z, r)
    | _ => (1%Z, s)
    end in
  let '(radix, s) :=
    match s with
    | 48 :: 120 :: r => (16%Z, r)
    | 48 :: 88 :: r => (16%Z, r)
    | _ => (10%Z, s)
    end in
  (fun n => (sign * n)%Z) <$> readDigits radix None s.

(** [parseInt(s)] for a string; [Ok None] is NaN.  The Number that
    [parseInt] gives is the double nearest to the integer read.  Up to
    2^52 in absolute value that is the integer itself, and the difference
    of two such numbers is exact as well; a larger integer is rounded, and
    the run is left [Unspecified]. *)
Definition parseInt (s : jsstring) : result (option Z) :=
  match integerPrefix s with
  | None => Ok None
  | Some n => if (Z.abs n <=? 2 ^ 52)%Z then Ok (Some n) else Unspecified
  end.

(** A creator: the flat refinement view of the element with [name] set to
    its text, in [props].  The code reads [author.name] as a string, and
    the key is always set, so its value is a field as well. *)
Record Creator := mkCreator {
  name : jsstring;
  props : gmap jsstring jsstring
}.

(** [parseInt(a['display-seq']) || 0]; a missing key reads [undefined],
    which [parseInt] turns into NaN, and NaN and 0 are falsy. *)
Definition displaySeq (a : Creator) : result Z :=
  match props a !! js "display-seq" with
  | Some s => n <- parseInt s ;; Ok (default 0%Z n)
  | None => Ok 0%Z
  end.

(** [creatorSort(a, b)]. *)
Definition creatorSort (a b : Creator) : result Z :=
  x <- displaySeq a ;;
  y <- displaySeq b ;;
  Ok (x - y)%Z.

(** [list.sort(creatorSort)].  The sort of an array is stable and calls
    the comparison function only on elements of the array, on none when
    there is at most one; here every element is put before the first later
    one that it does not follow. *)
Fixpoint insertCreator (a : Creator) (sorted : list Creator) : result (list Creator) :=
  match sorted with
  | [] => Ok [a]
  | b :: rest =>
      order <- creatorSort a b ;;
      if (order <=? 0)%Z then Ok (a :: b :: rest)
      else (rest <- insertCreator a rest ;; Ok (b :: rest))
  end.

Fixpoint arraySort (l : list Creator) : result (list Creator) :=
  match l with
  | [] => Ok []
  | a :: rest => sorted <- arraySort rest ;; insertCreator a sorted
  end.

(** One turn of the first loop of [parseCreators].  When no creator has
    been filed under the role and the role names a member of
    [Object.prototype], [creators[creator.role]] is that member: no array
    is made, and the member has no [push] to call. *)
Definition creatorStep (doc : Document) (creators : gmap jsstring (list Creator))
    (el : Element) : result (gmap jsstring (list Creator)) :=
  view <- refineMeta doc el true true ;;
  let creator := <[js "name" := textContent el]> (flatProps view) in
  let creator :=
    if negb (present (creator !! js "role"))
    then <[js "role" := js "unknown"]> creator else creator in
  let role := default [] (creator !! js "role") in
  match creators !! role with
  | Some group => Ok (<[role := group ++ [mkCreator (textContent el) creator]]> creators)
  | None =>
      if inherited role then Throw TypeError
      else Ok (<[role := [mkCreator (textContent el) creator]]> creators)
  end.

(** The second loop, [for (role in creators)]: every group is replaced by
    its sort. *)
Definition sortGroup (creators : gmap jsstring (list Creator))
    (entry : jsstring * list Creator) : result (gmap jsstring (list Creator)) :=
  sorted <- arraySort entry.2 ;;
  Ok (<[entry.1 := sorted]> creators).

Definition sortGroups (creators : gmap jsstring (list Creator))
    : result (gmap jsstring (list Creator)) :=
  loop sortGroup (map_to_list creators) creators.

(** [parseCreators()]. *)
Definition parseCreators (doc : Document) : result (gmap jsstring (list Creator)) :=
  els <- getMetas doc (js "dc:creator") ;;
  match els with
  | None => Throw TypeError
  | Some els =>
      creators <- loop (creatorStep doc) els ∅ ;;
      creators <- sortGroups creators ;;
      match creators !! js "unknown", creators !! js "aut" with
      | Some unknown, None => Ok (delete (js "unknown") (<[js "aut" := unknown]> creators))
      | _, _ => Ok creators
      end
  end.

(** One turn of the loop of [getAuthors]. *)
Definition authorStep (forFiling : bool) (ret : list jsstring) (author : Creator)
    : list jsstring :=
  if forFiling then
    if present (props author !! js "for-filing")
    then ret ++ [default [] (props author !! js "for-filing")]
    else
      let parts := split (name author) in
      if (List.length parts <=? 1)%nat then ret ++ [name author]
      else ret ++ [default [] (parts !! (List.length parts - 1)%nat) ++ js ", "
                   ++ join (js " ") (take (List.length parts - 1) parts)]
  else ret ++ [name author].

(** [getAuthors(forFiling)] over [this.creators]. *)
Definition getAuthors (creators : gmap jsstring (list Creator)) (forFiling : bool)
    : list jsstring :=
  match creators !! js "aut" with
  | None => []
  | Some aut => fold_left (authorStep forFiling) aut []
  end.

(** ** Manifest and spine *)

Definition manifestStep (o : gmap jsstring jsstring) (el : Element)
    : gmap jsstring jsstring :=
  let id := getAttribute el (js "id") in
  if negb (present id) then o
  else
    let href := getAttribute el (js "href") in
    if negb (present href) then o
    else setProperty o (default [] id) (default [] href).

(** [parseManifest()]. *)
Definition parseManifest (doc : Document) : gmap jsstring jsstring :=
  let els := querySelectorAll doc (SelUnder (js "manifest") (js "item") AnyAttributes) in
  fold_left manifestStep els ∅.

Record Spine := mkSpine {
  toc : option jsstring;
  pageProgressionDirection : jsstring;
  items : list Value
}.

(** One turn of the loop of [parseSpine]: [items[idref]] is pushed when it
    is truthy. *)
Definition spineStep (manifest : gmap jsstring jsstring) (spine : list Value)
    (el : Element) : list Value :=
  let idref := getAttribute el (js "idref") in
  if negb (present idref) then spine
  else if bool_decide (getAttribute el (js "linear") = Some (js "no")) then spine
  else
    let item := getProperty manifest (default [] idref) in
    if negb (truthyValue item) then spine
    else spine ++ option_list item.

(** [parseSpine()]; [None] is [null]. *)
Definition parseSpine (doc : Document) : option Spine :=
  let manifest := parseManifest doc in
  match querySelector doc (SelPackageChild (js "spine")) with
  | None => None
  | Some spineEl =>
      let els := querySelectorAll doc (SelUnder (js "spine") (js "itemref") AnyAttributes) in
      let spine := fold_left (spineStep manifest) els [] in
      Some (mkSpine
              (getAttribute spineEl (js "toc"))
              (if present (getAttribute spineEl (js "page-progression-direction"))
               then default [] (getAttribute spineEl (js "page-progression-direction"))
               else js "ltr")
              spine)
  end.

(** ** Cover image *)

Definition supportedCoverMediaTypes : list jsstring :=
  [js "image/jpeg"; js "image/png"; js "image/gif"; js "image/svg+xml"].

Definition supportedCoverFileTypeConv : list (jsstring * jsstring) :=
  [ (js "jpeg", js "image/jpeg"); (js "jpg", js "image/jpeg");
    (js "png", js "image/png"); (js "gif", js "image/gif");
    (js "svg", js "image/svg+xml") ].

Definition supportedCoverFileTypes : list jsstring := supportedCoverFileTypeConv.*1.

(** [isValidCoverImageElement(el)]: [None] is [false], [Some] the media
    type returned.  An element without a media type whose extension is not
    in the table falls through to the media-type test, which fails. *)
Definition isValidCoverImageElement (el : option Element) : option jsstring :=
  match el with
  | None => None
  | Some el =>
      let mediaType := getAttribute el (js "media-type") in
      if negb (present mediaType) then
        let href := getAttribute el (js "href") in
        if negb (present href) then None
        else if (indexOf dot (default [] href) <? 0)%Z then None
        else
          let ext := toLowerCase (dropThroughDots (default [] href)).1 in
          if existsb (streq ext) supportedCoverFileTypes
          then assoc ext supportedCoverFileTypeConv
          else None
      else if existsb (streq (default [] mediaType)) supportedCoverMediaTypes
      then mediaType
      else None
  end.

Record CoverImage := mkCoverImage {
  path : option jsstring;
  mediaType : option jsstring
}.

Definition manifestItem (doc : Document) (test : AttrTest) : option Element :=
  querySelector doc (SelUnder (js "manifest") (js "item") test).

Definition metadataMeta (doc : Document) (test : AttrTest) : option Element :=
  querySelector doc (SelUnder (js "metadata") (js "meta") test).

(** The first part of [parseCoverImage]: the manifest item with the
    [cover-image] property, then the two [meta] elements.  When the
    [meta[name=cover]] query finds nothing, [el] is [null] and
    [el.getAttribute] raises.  The [content] of the [meta] is put into the
    text of a selector. *)
Definition coverFromMetadata (doc : Document) : result (option Element) :=
  let el := manifestItem doc (AttrIncludes (js "properties") (js "cover-image")) in
  if isSome (isValidCoverImageElement el) then Ok el
  else
    let el := metadataMeta doc (AttrEquals (js "name") (js "cover-image")) in
    if isSome (isValidCoverImageElement el) then Ok el
    else
      let el := metadataMeta doc (AttrEquals (js "name") (js "cover")) in
      if isSome (isValidCoverImageElement el) then Ok el
      else
        match el with
        | None => Throw TypeError
        | Some meta =>
            let itemID := getAttribute meta (js "content") in
            if present itemID
            then
              value <- attributeValue false (default [] itemID) ;;
              Ok (manifestItem doc (AttrEquals (js "id") value))
            else Ok el
        end.

(** The second part: the items with the conventional ids. *)
Definition coverFromIds (doc : Document) (el : option Element) : option Element :=
  if isSome (isValidCoverImageElement el) then el
  else
    let el := manifestItem doc (AttrEquals (js "id") (js "cover-image")) in
    if isSome (isValidCoverImageElement el) then el
    else manifestItem doc (AttrEquals (js "id") (js "cover")).

(** [parseCoverImage()]. *)
Definition parseCoverImage (doc : Document) : result CoverImage :=
  el <- coverFromMetadata doc ;;
  let el := coverFromIds doc el in
  match isValidCoverImageElement el with
  | None => Ok (mkCoverImage None None)
  | Some mediaType =>
      Ok (mkCoverImage (el ≫= (fun e => getAttribute e (js "href"))) (Some mediaType))
  end.

(** [getCoverPage()]; [None] is [undefined] or a missing [href]. *)
Definition getCoverPage (doc : Document) : option jsstring :=
  match querySelector doc (SelUnder (js "guide") (js "reference")
                             (AttrEquals (js "type") (js "cover"))) with
  | None => None
  | Some el => getAttribute el (js "href")
  end.

(** ** Identifiers *)

(** The ONIX code list 5, keyed by the decimal text of the code. *)
Definition onixCodeList5 : list (jsstring * jsstring) :=
  [ (js "1", js "Proprietary"); (js "2", js "ISBN-10"); (js "3", js "GTIN-13");
    (js "4", js "UPC"); (js "5", js "ISMN-10"); (js "6", js "DOI");
    (js "13", js "LCCN"); (js "14", js "GTIN-14"); (js "15", js "ISBN-13");
    (js "17", js "Legal deposit number"); (js "22", js "URN");
    (js "23", js "OCLC number"); (js "25", js "ISMN-13"); (js "26", js "ISBN-A");
    (js "27", js "JP e-code"); (js "28", js "OLCC number");
    (js "29", js "JP Magazine ID"); (js "30", js "UPC12+5");
    (js "31", js "BNF Control number"); (js "35", js "ARK") ].

(** The object [parseIdentifiers] fills.  Every key holds a string except
    [URIs], which holds an array and is written by no other branch (no
    label of the code list is [URIs], and no engine prints a member of
    [Object.prototype] so); it is kept apart, [None] while the key is
    missing. *)
Record IdentifierSet := mkIdentifierSet {
  fields : gmap jsstring jsstring;
  URIs : option (list jsstring)
}.

Definition noIdentifiers : IdentifierSet := mkIdentifierSet ∅ None.

Definition setField (o : IdentifierSet) (key val : jsstring) : IdentifierSet :=
  mkIdentifierSet (<[key := val]> (fields o)) (URIs o).

Definition pushURI (o : IdentifierSet) (text : jsstring) : IdentifierSet :=
  mkIdentifierSet (fields o) (Some (default [] (URIs o) ++ [text])).

Section Collaborators.

(** The ISBN library: [hyphenate] and [validate] of beautify-isbn. *)
Variable formatISBN : jsstring -> jsstring.
Variable validateISBN : jsstring -> bool.

(** The text that the engine gives for a member of [Object.prototype]
    when the member is used as a property key: [String(Object)] for
    [constructor], and the text [[object Object]] for [__proto__]. *)
Variable printMember : jsstring -> jsstring.

(** [setISBN(o, text)]. *)
Definition setISBN (o : IdentifierSet) (text : jsstring) : IdentifierSet :=
  let val := digitsOnly text in
  if (List.length val =? 10)%nat then setField o (js "ISBN-10") (formatISBN val)
  else if (List.length val =? 13)%nat then setField o (js "ISBN-13") (formatISBN val)
  else o.

(** The two tests at the head of a turn, which no [continue] skips: the
    UUID and the URIs. *)
Definition uuidAndUriStep (epubID : option jsstring) (o : IdentifierSet) (el : Element)
    : IdentifierSet :=
  let o :=
    if present epubID && bool_decide (getAttribute el (js "id") = epubID)
    then setField o (js "UUID") (textContent el) else o in
  if bool_decide (getAttribute el (js "opf:scheme") = Some (js "URI"))
  then pushURI o (textContent el) else o.

(** [val && val.toUpperCase() === 'ISBN'] for the [opf:scheme] attribute. *)
Definition hasIsbnScheme (el : Element) : bool :=
  let val := getAttribute el (js "opf:scheme") in
  present val && streq (toUpperCase (default [] val)) (js "ISBN").

(** One turn of the loop of [parseIdentifiers]; every [continue] ends the
    turn with the object as it then is.  [onixCodeList5[attr]] is the
    label of a code of the list; for a text that is no code and names a
    member of [Object.prototype] it is that member, which is truthy: the
    text of the element is then stored under the key that the engine
    prints for the member, and the member is no ISBN label. *)
Definition identifierStep (doc : Document) (epubID : option jsstring)
    (o : IdentifierSet) (el : Element) : result IdentifierSet :=
  let o := uuidAndUriStep epubID o el in
  if hasIsbnScheme el then Ok (setISBN o (textContent el))
  else
    attrs <- refineMeta doc el false false ;;
    match attrs with
    | None => Ok o
    | Some attrs =>
        match viewGroup attrs (js "onix:codelist5") with
        | Some group =>
            let attr := group !! js "identifier-type" in
            if negb (present attr) then Ok o
            else
              match assoc (default [] attr) onixCodeList5 with
              | None =>
                  if inherited (default [] attr)
                  then Ok (setField o (printMember (default [] attr)) (textContent el))
                  else Ok o
              | Some label =>
                  let o := setField o label (textContent el) in
                  if streq label (js "ISBN-10") || streq label (js "ISBN-13")
                  then Ok (setField o label (formatISBN (digitsOnly (textContent el))))
                  else Ok o
              end
        | None =>
            match viewGroup attrs noScheme with
            | Some group =>
                if present (group !! js "id")
                   && isbnRegex (default [] (group !! js "id"))
                then Ok (setISBN o (textContent el))
                else Ok o
            | None => Ok o
            end
        end
    end.

(** The last resort after the loop: the UUID read as an ISBN. *)
Definition uuidFallback (o : IdentifierSet) : IdentifierSet :=
  if present (fields o !! js "UUID")
     && negb (present (fields o !! js "ISBN-10"))
     && negb (present (fields o !! js "ISBN-13"))
  then
    let val := digitsOnly (default [] (fields o !! js "UUID")) in
    if validateISBN val then setISBN o val else o
  else o.

(** The object as the loop leaves it, for a document that has a [package]
    element and identifiers. *)
Definition identifierLoop (doc : Document) (epubID : option jsstring)
    (els : list Element) : result IdentifierSet :=
  loop (identifierStep doc epubID) els noIdentifiers.

(** [parseIdentifiers()]. *)
Definition parseIdentifiers (doc : Document) : result IdentifierSet :=
  match querySelector doc SelPackage with
  | None => Ok noIdentifiers
  | Some el =>
      let epubID := getAttribute el (js "unique-identifier") in
      els <- getMetas doc (js "dc:identifier") ;;
      match els with
      | None => Throw TypeError
      | Some [] => Ok noIdentifiers
      | Some els =>
          o <- identifierLoop doc epubID els ;;
          Ok (uuidFallback o)
      end
  end.

(** ** The constructor *)

(** [new Date(text)]: the time value that the engine's date parser gives,
    or the Invalid Date object when it gives NaN.  Either is an object, and
    building it does not raise. *)
Inductive JsDate :=
  | DateAt (timeValue : Z)
  | InvalidDate.

(** What the field [publicationDate] holds when it is not [null]: the text
    that [getMeta] returned, or the [Date] built from it. *)
Inductive DateField :=
  | DateText (text : jsstring)
  | DateObject (date : JsDate).

(** [Date.parse] of the engine, [None] for NaN. *)
Variable dateParse : jsstring -> option Z.

Definition newDate (text : jsstring) : JsDate :=
  match dateParse text with
  | Some t => DateAt t
  | None => InvalidDate
  end.

(** The language-tag parser of parse_language.js. *)
Variable Language : Type.
Variable parseLanguage : jsstring -> Language.

Record OPF := mkOPF {
  titles : gmap jsstring jsstring;
  title : option jsstring;
  subtitle : option jsstring;
  description : option jsstring;
  publicationDate : option DateField;
  publisher : option jsstring;
  identifiers : IdentifierSet;
  creators : gmap jsstring (list Creator);
  authors : list jsstring;
  authorsForFiling : list jsstring;
  language : option Language;
  coverImage : CoverImage;
  copyright : option jsstring;
  coverPage : option jsstring;
  spine : option Spine
}.

(** [this.getMeta(tagName, true)]: the text or [null]. *)
Definition getMetaText (doc : Document) (tagName0 : jsstring) : result (option jsstring) :=
  v <- getMeta doc tagName0 true ;;
  match v with
  | Some (MetaText text) => Ok (Some text)
  | _ => Ok None
  end.

(** [new OPF(opfStr)] once the text is parsed into [doc]: the resolvers in
    the order of the code, the first exception ending the construction. *)
Definition constructor (doc : Document) : result OPF :=
  titles <- getTitles doc ;;
  let title := titles !! js "main" in
  let subtitle := titles !! js "subtitle" in
  description <- getMetaText doc (js "dc:description") ;;
  publicationDate <- getMetaText doc (js "dc:date") ;;
  let publicationDate :=
    match publicationDate with
    | Some text =>
        if truthy text then Some (DateObject (newDate text))
        else Some (DateText text)
    | None => None
    end in
  publisher <- getMetaText doc (js "dc:publisher") ;;
  identifiers <- parseIdentifiers doc ;;
  creators <- parseCreators doc ;;
  let authors := getAuthors creators false in
  let authorsForFiling := getAuthors creators true in
  lang <- getMetaText doc (js "dc:language") ;;
  let language :=
    if present lang then Some (parseLanguage (default [] lang)) else None in
  coverImage <- parseCoverImage doc ;;
  copyright <- getMetaText doc (js "dc:rights") ;;
  let coverPage := getCoverPage doc in
  let spine := parseSpine doc in
  Ok (mkOPF titles title subtitle description publicationDate publisher
        identifiers creators authors authorsForFiling language coverImage
        copyright coverPage spine).

End Collaborators.

(** ** getISBN *)

(** [getISBN()]: [identifiers['ISBN-13'] || identifiers['ISBN-10']]. *)
Definition getISBN (identifiers : IdentifierSet) : option jsstring :=
  if present (fields identifiers !! js "ISBN-13")
  then fields identifiers !! js "ISBN-13"
  else fields identifiers !! js "ISBN-10".

(** ** The reader component (Root.js) *)

Module Root.

(** [absoluteURI(relativeURI)]. *)
Definition absoluteURI (baseuri relativeURI : jsstring) : jsstring :=
  baseuri ++ js "//" ++ relativeURI.

(** The two errors that [readContainerXML] builds itself. *)
Inductive ContainerError :=
  | NoRepresentations
  | NoPackagePath.

Inductive Promise (A : Type) :=
  | Resolve (a : A)
  | Reject (e : ContainerError).
Arguments Resolve {A} a.
Arguments Reject {A} e.

(** [doc.querySelectorAll("container > rootfiles > rootfile")]: a chain of
    two child steps. *)
Definition isRootfile (el : Element) : bool :=
  streq (localName (tagName el)) (js "rootfile")
  && match ancestors el with
     | p :: g :: _ => streq p (js "rootfiles") && streq g (js "container")
     | _ => false
     end.

Definition rootfiles (doc : Document) : list Element :=
  List.filter isRootfile (elements doc).

(** The callback of [readContainerXML] once [container.xml] is read and
    parsed into [doc]; the two [console.log] calls are left out. *)
Definition readContainerXML (doc : Document) : Promise jsstring :=
  let els := rootfiles doc in
  match els with
  | [] => Reject NoRepresentations
  | el :: _ =>
      let opfPath := getAttribute el (js "full-path") in
      if negb (present opfPath) then Reject NoPackagePath
      else
        match default [] opfPath with
        | 47 :: rest => Resolve rest
        | whole => Resolve whole
        end
  end.

(** A call on the paginator. *)
Inductive PageTurn :=
  | nextPage
  | prevPage.

(** What the key handlers read and write: the key codes in [keysDown]
    (every value stored there is [true]) and the calls made on the
    paginator, oldest first. *)
Record Keys := mkKeys {
  keysDown : gset Z;
  turns : list PageTurn
}.

(** [onkeydown(e)] for [e.keyCode = keyCode]. *)
Definition onkeydown (keyCode : Z) (st : Keys) : Keys :=
  if bool_decide (keyCode = 32%Z) || bool_decide (keyCode = 39%Z) then
    if bool_decide (keyCode ∈ keysDown st) then st
    else mkKeys ({[ keyCode ]} ∪ keysDown st) (turns st ++ [nextPage])
  else if bool_decide (keyCode = 37%Z) then
    if bool_decide (keyCode ∈ keysDown st) then st
    else mkKeys ({[ keyCode ]} ∪ keysDown st) (turns st ++ [prevPage])
  else st.

(** [onkeyup(e)]. *)
Definition onkeyup (keyCode : Z) (st : Keys) : Keys :=
  if bool_decide (keyCode = 32%Z) || bool_decide (keyCode = 39%Z)
     || bool_decide (keyCode = 37%Z) then
    if negb (bool_decide (keyCode ∈ keysDown st)) then st
    else mkKeys (keysDown st ∖ {[ keyCode ]}) (turns st)
  else st.

Inductive KeyEvent :=
  | KeyDown (keyCode : Z)
  | KeyUp (keyCode : Z).

Definition handle (st : Keys) (e : KeyEvent) : Keys :=
  match e with
  | KeyDown k => onkeydown k st
  | KeyUp k => onkeyup k st
  end.

(** The component after a sequence of key events; the constructor sets
    [keysDown] to [{}]. *)
Definition afterEvents (events : list KeyEvent) : Keys :=
  fold_left handle events (mkKeys ∅ []).

(** What [componentDidMount] does with a package that [parseEpub]
    returned, in order.  A URI is the cover page, a string, or the first
    item of the spine. *)
Inductive MountStep :=
  | SetUri (uri : option Value)
  | NewPaginator (spineItems : list Value)
  | Load (uri : option Value)
  | ListenToKeys.

(** [componentDidMount()] after [parseEpub] has resolved with a package
    whose [coverPage] and [spine] are given: the steps taken and the
    exception that ends them, if any.  [opf.spine.items] raises when
    [opf.spine] is [null]; the paginator is assumed to build and load. *)
Definition componentDidMount (coverPage : option jsstring) (spine : option Spine)
    : list MountStep * option JsError :=
  if present coverPage then
    let curURI := Str <$> coverPage in
    match spine with
    | None => ([SetUri curURI], Some TypeError)
    | Some sp =>
        ([SetUri curURI; NewPaginator (items sp); Load curURI; ListenToKeys], None)
    end
  else
    match spine with
    | None => ([], Some TypeError)
    | Some sp =>
        let curURI := head (items sp) in
        ([SetUri curURI; NewPaginator (items sp); Load curURI; ListenToKeys], None)
    end.

End Root.

(** ** Sample documents *)

Definition elem (tag : string) (attrs : list (string * string)) (kids : list Node) : Node :=
  ElementNode (js tag) (map (fun kv => (js kv.1, js kv.2)) attrs) kids.

Definition text (s : string) : Node := TextNode (js s).

Definition package (attrs : list (string * string)) (metadata manifest spine : list Node)
    : Document :=
  elem "package" attrs
    [elem "metadata" [] metadata; elem "manifest" [] manifest; elem "spine" [] spine].

Definition sampleTitles : Document :=
  package []
    [ elem "dc:title" [] [text "Foo"];
      elem "dc:title" [("id", "t2")] [text "Bar"];
      elem "meta" [("refines", "#t2"); ("property", "title-type")] [text "subtitle"] ]
    [] [].

(** A package with no title. *)
Definition untitled : Document := package [] [] [] [].

(** The cover is the manifest item with the conventional id, and no [meta]
    names it. *)
Definition coverById : Document :=
  package [] []
    [ elem "item" [("id", "cover"); ("href", "cover.jpg"); ("media-type", "image/jpeg")] [] ]
    [].

(** An identifier that the code list types as ISBN-13 and whose text holds
    ten digits. *)
Definition onixTenDigits : Document :=
  package []
    [ elem "dc:identifier" [("id", "pub-id")] [text "0-330-32002-5"];
      elem "meta" [("refines", "#pub-id"); ("property", "identifier-type");
                   ("scheme", "onix:codelist5")] [text "15"] ]
    [] [].

(** The same with a text of five digits. *)
Definition onixFiveDigits : Document :=
  package []
    [ elem "dc:identifier" [("id", "pub-id")] [text "urn:isbn:97807"];
      elem "meta" [("refines", "#pub-id"); ("property", "identifier-type");
                   ("scheme", "onix:codelist5")] [text "15"] ]
    [] [].

(** The unique identifier of the package is an ISBN. *)
Definition isbnAsUuid : Document :=
  package [("unique-identifier", "bookid")]
    [ elem "dc:identifier" [("id", "bookid")] [text "978-1-4302-6572-6"] ]
    [] [].


Definition nonLinearSpine : Document :=
  package [] []
    [ elem "item" [("id", "a"); ("href", "x.html")] [];
      elem "item" [("id", "b"); ("href", "y.html")] [] ]
    [ elem "itemref" [("idref", "a"); ("linear", "no")] [];
      elem "itemref" [("idref", "b")] [] ].

(** A spine whose second itemref names no item of the manifest. *)
Definition danglingItemref : Document :=
  package [] []
    [ elem "item" [("id", "a"); ("href", "x.html")] [] ]
    [ elem "itemref" [("idref", "a")] [];
      elem "itemref" [("idref", "constructor")] [] ].

Definition janeDoe : Document :=
  package [] [ elem "dc:creator" [("id", "c1")] [text "Jane Doe"] ] [] [].

(** A creator whose filing name is set and empty. *)
Definition janeDoeEmptyFiling : Document :=
  package []
    [ elem "dc:creator" [("id", "c1"); ("for-filing", "")] [text "Jane Doe"] ]
    [] [].

(** Two authors in the reverse of their display sequence, and an editor. *)
Definition threeCreators : Document :=
  package []
    [ elem "dc:creator" [("opf:role", "aut"); ("display-seq", "2")] [text "Bob"];
      elem "dc:creator" [("opf:role", "edt")] [text "Eve"];
      elem "dc:creator" [("opf:role", "aut"); ("display-seq", "1")] [text "Ann"] ]
    [] [].

(** A date that no parser reads, in a package with a cover. *)
Definition undated : Document :=
  package []
    [ elem "dc:date" [] [text "not a date"] ]
    [ elem "item" [("id", "c"); ("href", "c.png"); ("properties", "cover-image")] [] ]
    [].


(** An identifier whose type is no code of the list but the name of a
    member of [Object.prototype]. *)
Definition inheritedCode : Document :=
  package []
    [ elem "dc:identifier" [("id", "x")] [text "t"];
      elem "meta" [("refines", "#x"); ("property", "identifier-type");
                   ("scheme", "onix:codelist5")] [text "constructor"] ]
    [] [].

(** An identifier whose id holds a dot. *)
Definition dottedId : Document :=
  package [] [ elem "dc:identifier" [("id", "pub.id")] [text "t"] ] [] [].

(** Sample collaborators: the check digits of ISBN-10 and ISBN-13, and a
    formatter that leaves the digits as they are. *)
Fixpoint weightedSum (weights : list Z) (digits : jsstring) : Z :=
  match weights, digits with
  | w :: ws, d :: ds => (w * Z.of_N (d - 48) + weightedSum ws ds)%Z
  | _, _ => 0%Z
  end.

Definition checkDigits (val : jsstring) : bool :=
  if (List.length val =? 10)%nat
  then (weightedSum [10; 9; 8; 7; 6; 5; 4; 3; 2; 1]%Z val mod 11 =? 0)%Z
  else if (List.length val =? 13)%nat
  then (weightedSum [1; 3; 1; 3; 1; 3; 1; 3; 1; 3; 1; 3; 1]%Z val mod 10 =? 0)%Z
  else false.

Definition unhyphenated (val : jsstring) : jsstring := val.

(** A sample of what an engine prints for the members of
    [Object.prototype]. *)
Definition nativeCode (member : jsstring) : jsstring :=
  if streq member protoKey then js "[object Object]"
  else js "function "
       ++ (if streq member (js "constructor") then js "Object" else member)
       ++ js "() { [native code] }".

(** ** The words of the specification

    Definitions that follow the specification's sentences, for comparison
    with the code above. *)

(** The elements under [package > metadata] whose tag name is
    [prefix:local]. *)
Definition qualifiedElements (doc : Document) (prefix local : jsstring) : list Element :=
  List.filter (fun el => streq (tagName el) (prefix ++ colon :: local))
    (querySelectorAll doc (SelUnder (js "metadata") local AnyAttributes)).

(** The flat view of an element after refinement, when [refineMeta]
    returns one. *)
Definition flatView (doc : Document) (el : Element) : gmap jsstring jsstring :=
  match refineMeta doc el true true with
  | Ok view => flatProps view
  | _ => ∅
  end.

(** The label that the ONIX branch finds for an identifier. *)
Definition onixLabel (doc : Document) (el : Element) : option jsstring :=
  match refineMeta doc el false false with
  | Ok (Some attrs) =>
      viewGroup attrs (js "onix:codelist5") ≫= fun group =>
      group !! js "identifier-type" ≫= fun code =>
      assoc code onixCodeList5
  | _ => None
  end.

(** The object before the last resort: what the loop over the
    [dc:identifier] elements leaves. *)
Definition scannedIdentifiers (formatISBN printMember : jsstring -> jsstring)
    (doc : Document) : result IdentifierSet :=
  match querySelector doc SelPackage with
  | None => Ok noIdentifiers
  | Some el =>
      identifierLoop formatISBN printMember doc (getAttribute el (js "unique-identifier"))
        (qualifiedElements doc (js "dc") (js "identifier"))
  end.

(** What an itemref contributes to the spine: nothing when it lacks an
    idref or is not linear, and otherwise what the manifest object gives
    for its idref. *)
Definition resolveItemref (manifest : gmap jsstring jsstring) (el : Element)
    : option Value :=
  match getAttribute el (js "idref") with
  | None => None
  | Some idref =>
      if bool_decide (getAttribute el (js "linear") = Some (js "no")) then None
      else getProperty manifest idref
  end.

(** The [item] elements of the manifest and the [itemref] elements of the
    spine, as the resolver selects them. *)
Definition manifestItems (doc : Document) : list Element :=
  querySelectorAll doc (SelUnder (js "manifest") (js "item") AnyAttributes).

Definition spineItemrefs (doc : Document) : list Element :=
  querySelectorAll doc (SelUnder (js "spine") (js "itemref") AnyAttributes).

(** The title type of a [dc:title] after refinement. *)
Definition titleType (doc : Document) (el : Element) : option jsstring :=
  flatView doc el !! js "title-type".

Definition lacksTitleType (doc : Document) (el : Element) : bool :=
  negb (present (titleType doc el)).

Definition isMainTitle (doc : Document) (el : Element) : bool :=
  bool_decide (titleType doc el = Some (js "main")).

(** "Last, First Middle": the final token, a comma and a space, then the
    other tokens joined by spaces; a name of one token as it is. *)
Definition lastFirst (display : jsstring) : jsstring :=
  match split display with
  | [] | [_] => display
  | tokens => default [] (last tokens) ++ js ", " ++ join (js " ") (removelast tokens)
  end.

(** The filing name: the [for-filing] value when it is set and not empty. *)
Definition filingName (author : Creator) : jsstring :=
  match props author !! js "for-filing" with
  | Some filing => if truthy filing then filing else lastFirst (name author)
  | None => lastFirst (name author)
  end.

Definition dateElements (doc : Document) : list Element :=
  qualifiedElements doc (js "dc") (js "date").

(** The field as the constructor leaves it. *)
Definition dateField (dateParse : jsstring -> option Z) (doc : Document)
    : option DateField :=
  match dateElements doc with
  | [] => None
  | el :: _ =>
      if truthy (textContent el)
      then Some (DateObject (newDate dateParse (textContent el)))
      else Some (DateText (textContent el))
  end.

(** The manifest map has no empty key, no empty href and no [__proto__]. *)
Definition manifestClean (m : gmap jsstring jsstring) : Prop :=
  m !! [] = None /\ m !! protoKey = None
  /\ forall key href, m !! key = Some href -> href <> [].

(** The key of the main title. *)
Definition main : jsstring := js "main".



(** The identifier whose [id] is the unique identifier of the package. *)
Definition isUniqueIdentifier (epubID : option jsstring) (el : Element) : bool :=
  present epubID && bool_decide (getAttribute el (js "id") = epubID).

(** [Some l] for a list that is not empty. *)
Definition nonEmpty {A} (l : list A) : option (list A) :=
  match l with [] => None | _ => Some l end.

(** A manifest item that [parseManifest] keeps. *)
Definition isManifestEntry (el : Element) : bool :=
  present (getAttribute el (js "id")) && present (getAttribute el (js "href")).

(** A kept manifest item with the given id. *)
Definition entryFor (key : jsstring) (el : Element) : bool :=
  isManifestEntry el && bool_decide (getAttribute el (js "id") = Some key).

(** The role under which a [dc:creator] is filed, and its record. *)
Definition roleOf (doc : Document) (el : Element) : jsstring :=
  let view := <[js "name" := textContent el]> (flatView doc el) in
  if present (view !! js "role") then default [] (view !! js "role") else js "unknown".

Definition creatorOf (doc : Document) (el : Element) : Creator :=
  let view := <[js "name" := textContent el]> (flatView doc el) in
  mkCreator (textContent el)
    (if present (view !! js "role") then view else <[js "role" := js "unknown"]> view).

(** The display sequence of a creator as a number: the integer read in
    its [display-seq], and 0 when there is none. *)
Definition sequenceOf (c : Creator) : Z :=
  default 0%Z (props c !! js "display-seq" ≫= integerPrefix).

(** The sequence is a number that the code holds exactly. *)
Definition hasExactSequence (c : Creator) : bool :=
  (Z.abs (sequenceOf c) <=? 2 ^ 52)%Z.

(** Ascending display sequence. *)
Definition bySequence (a b : Creator) : Prop := (sequenceOf a <= sequenceOf b)%Z.

(** The stable sort in ascending display sequence. *)
Fixpoint insertBySequence (a : Creator) (sorted : list Creator) : list Creator :=
  match sorted with
  | [] => [a]
  | b :: rest =>
      if (sequenceOf a <=? sequenceOf b)%Z then a :: b :: rest
      else b :: insertBySequence a rest
  end.

Definition sortBySequence (l : list Creator) : list Creator :=
  foldr insertBySequence [] l.

(** The name under which an attribute or a property is stored. *)
Definition keyOf (dropSchemes : bool) (attr : jsstring) : jsstring :=
  if dropSchemes then stripScheme attr else attr.

(** The value that the element's own attributes give to a key: that of
    the last attribute stored under the key; nothing is stored under
    [__proto__]. *)
Definition ownProperty (dropSchemes : bool) (el : Element) (key : jsstring)
    : option jsstring :=
  if streq key protoKey then None
  else
    last (List.filter (fun attr => streq (keyOf dropSchemes attr) key) (getAttributeNames el))
      ≫= getAttribute el.


(** The refining [meta] elements of an element with the given id. *)
Definition refiningMetas (doc : Document) (id : jsstring) : list Element :=
  querySelectorAll doc
    (SelUnder (js "metadata") (js "meta") (AttrEquals (js "refines") (js "#" ++ id))).

(** The [meta] elements that refine the element, found through the [id]
    among its own properties. *)
Definition refinementsOf (doc : Document) (dropSchemes : bool) (el : Element)
    : list Element :=
  match ownProperty dropSchemes el (js "id") with
  | Some id => if truthy id then refiningMetas doc id else []
  | None => []
  end.

(** The id among the own properties can stand in the selector of the
    refining elements: it is missing, empty, or made of letters, digits,
    hyphens and underscores. *)
Definition hasPlainId (dropSchemes : bool) (el : Element) : bool :=
  forallb isNameUnit (default [] (ownProperty dropSchemes el (js "id"))).



(** The [meta] stores its text under the key (nothing is stored under
    [__proto__]). *)
Definition setsProperty (dropSchemes : bool) (key : jsstring) (el : Element) : bool :=
  match getAttribute el (js "property") with
  | Some attr =>
      truthy attr && streq (keyOf dropSchemes attr) key && negb (streq key protoKey)
  | None => false
  end.



Definition notSpace (c : N) : bool := negb (isSpace c).

Definition notLineTerminator (c : N) : bool := negb (isLineTerminator c).

(** The titles of a given type. *)
Definition hasTitleType (doc : Document) (kind : jsstring) (el : Element) : bool :=
  truthy kind && bool_decide (titleType doc el = Some kind).

(** A unit that is neither a dot nor a line terminator: what [.*] may
    cross without meeting the dot of the extension. *)
Definition plainUnit (c : N) : bool := negb (c =? dot) && negb (isLineTerminator c).

(** The creators that are filed under a role, in document order, and the
    same after the sort. *)
Definition creatorsWithRole (doc : Document) (role : jsstring) : list Creator :=
  map (creatorOf doc)
    (List.filter (fun el => streq (roleOf doc el) role)
       (qualifiedElements doc (js "dc") (js "creator"))).

Definition sortedGroup (doc : Document) (role : jsstring) : list Creator :=
  sortBySequence (creatorsWithRole doc role).

(** The creators of a list with a given display sequence. *)
Definition withSequence (seq : Z) (l : list Creator) : list Creator :=
  List.filter (fun c => (sequenceOf c =? seq)%Z) l.

(** The keys that turn pages, the call each one makes, and the key-up
    events of a sequence. *)
Definition pagingKeys : gset Z := {[ 32%Z; 37%Z; 39%Z ]}.

Definition turnOf (keyCode : Z) : Root.PageTurn :=
  if bool_decide (keyCode = 37%Z) then Root.prevPage else Root.nextPage.

Definition isKeyUp (e : Root.KeyEvent) : bool :=
  match e with Root.KeyUp _ => true | Root.KeyDown _ => false end.

Definition keyUps (events : list Root.KeyEvent) : nat :=
  List.length (List.filter isKeyUp events).

(** * Properties *)

(** ** Strings *)


Lemma digitsOnly_digits text : Forall (fun c => isDigit c = true) (digitsOnly text).
Proof.
  unfold digitsOnly. induction text as [|c r IH]; simpl; [constructor|].
  destruct (isDigit c) eqn:E; [by constructor|done].
Qed.

Lemma streq_true a b : streq a b = true <-> a = b.
Proof. unfold streq. apply bool_decide_eq_true. Qed.

Lemma streq_false a b : streq a b = false <-> a <> b.
Proof. unfold streq. apply bool_decide_eq_false. Qed.

Lemma streq_refl a : streq a a = true.
Proof. by apply streq_true. Qed.

Lemma present_Some s : present (Some s) = truthy s.
Proof. done. Qed.

Lemma truthy_true s : truthy s = true <-> s <> [].
Proof. by destruct s. Qed.

Lemma truthy_false s : truthy s = false <-> s = [].
Proof. by destruct s. Qed.

Lemma existsb_streq s l : existsb (streq s) l = true <-> s ∈ l.
Proof.
  rewrite existsb_exists. split.
  - intros (x & Hin & Heq). apply streq_true in Heq. subst x. by apply list_elem_of_In.
  - intros Hin. exists s. split; [by apply list_elem_of_In|apply streq_refl].
Qed.

Lemma indexOf_found c s :
  (0 <= indexOf c s)%Z -> exists before after, s = before ++ c :: after /\ c ∉ before.
Proof.
  induction s as [|d r IH]; simpl; [lia|].
  destruct (N.eqb_spec d c) as [->|Hd].
  - intros _. exists [], r. split; [done|apply not_elem_of_nil].
  - destruct (Z.ltb_spec (indexOf c r) 0); [lia|]. intros _.
    destruct IH as (before & after & -> & Hfresh); [lia|].
    exists (d :: before), after. split; [done|].
    apply not_elem_of_cons. by split.
Qed.

Lemma indexOf_app_fresh c prefix rest :
  c ∉ prefix -> indexOf c (prefix ++ c :: rest) = Z.of_nat (List.length prefix).
Proof.
  induction prefix as [|d r IH]; intros H; simpl.
  - by rewrite N.eqb_refl.
  - apply not_elem_of_cons in H as [Hd Hr].
    destruct (d =? c) eqn:E; [apply N.eqb_eq in E; congruence|].
    rewrite (IH Hr). destruct (Z.of_nat (List.length r) <? 0)%Z eqn:E'; lia.
Qed.

Lemma indexOf_member c s : c ∈ s -> (0 <= indexOf c s)%Z.
Proof.
  induction s as [|d r IH]; intros H; [by apply elem_of_nil in H|].
  simpl. destruct (N.eqb_spec d c) as [->|Hd]; [lia|].
  apply elem_of_cons in H as [?|H]; [congruence|].
  specialize (IH H). destruct (Z.ltb_spec (indexOf c r) 0); lia.
Qed.

Lemma indexOf_absent c s : c ∉ s -> (indexOf c s < 0)%Z.
Proof.
  induction s as [|d r IH]; intros H; simpl; [lia|].
  apply not_elem_of_cons in H as [Hd Hr].
  destruct (N.eqb_spec d c) as [?|_]; [congruence|].
  specialize (IH Hr). destruct (Z.ltb_spec (indexOf c r) 0); lia.
Qed.

Lemma last_filter_cons {A} (P : A -> bool) (x : A) (l : list A) :
  last (List.filter P (x :: l))
  = match last (List.filter P l) with
    | Some y => Some y
    | None => if P x then Some x else None
    end.
Proof.
  simpl. destruct (P x); [|by destruct (last _)].
  destruct (List.filter P l) as [|y ys] eqn:Hf; [done|].
  change (last (x :: y :: ys)) with (last (y :: ys)).
  destruct (last (y :: ys)) eqn:Hl; [done|]. by apply last_None in Hl.
Qed.

Lemma filter_sublist {A} (P : A -> bool) (l : list A) : List.filter P l `sublist_of` l.
Proof.
  induction l as [|x l IH]; simpl; [constructor|].
  destruct (P x); by constructor.
Qed.

Lemma omap_length_le {A B} (f : A -> option B) (l : list A) :
  (List.length (omap f l) <= List.length l)%nat.
Proof.
  induction l as [|x l IH]; [done|].
  change (omap f (x :: l)) with
    (match f x with Some y => y :: omap f l | None => omap f l end).
  destruct (f x); simpl; lia.
Qed.


Lemma assoc_names key (l : list (jsstring * jsstring)) :
  key ∈ l.*1 <-> is_Some (assoc key l).
Proof.
  induction l as [|[k v] l IH]; simpl.
  - split; [intros H; by apply elem_of_nil in H|by intros [? ?]].
  - unfold streq. case_bool_decide as Hk.
    + subst k. split; [eauto|intros _; apply list_elem_of_here].
    + rewrite elem_of_cons, IH. split; [intros [?|?]; [congruence|done]|by right].
Qed.

Lemma assoc_values key (l : list (jsstring * jsstring)) v :
  assoc key l = Some v -> v ∈ l.*2.
Proof.
  induction l as [|[k w] l IH]; [done|]. simpl.
  destruct (streq k key).
  - intros [= ->]. apply list_elem_of_here.
  - intros H. by apply list_elem_of_further, IH.
Qed.

(** ** Results and loops *)

Lemma bind_Ok {A B} (r : result A) (k : A -> result B) (b : B) :
  bind r k = Ok b <-> exists a, r = Ok a /\ k a = Ok b.
Proof.
  destruct r as [a| |]; simpl.
  - split; [by exists a|by intros (? & [= <-] & ?)].
  - split; [done|by intros (? & ? & _)].
  - split; [done|by intros (? & ? & _)].
Qed.

Lemma loop_cons_Ok {A B} (step : A -> B -> result A) el els a r :
  loop step (el :: els) a = Ok r <-> exists a', step a el = Ok a' /\ loop step els a' = Ok r.
Proof. apply bind_Ok. Qed.

Lemma loop_app {A B} (step : A -> B -> result A) l1 l2 a :
  loop step (l1 ++ l2) a = bind (loop step l1 a) (loop step l2).
Proof.
  revert a. induction l1 as [|el l1 IH]; intros a; [done|].
  simpl. destruct (step a el); simpl; [apply IH|done|done].
Qed.

(** A loop whose turns all return is the fold of what they return. *)
Lemma loop_fold {A B} (step : A -> B -> result A) (pure : A -> B -> A) els a :
  (forall a el, el ∈ els -> step a el = Ok (pure a el)) ->
  loop step els a = Ok (fold_left pure els a).
Proof.
  revert a. induction els as [|el els IH]; intros a H; [done|].
  simpl. rewrite (H a el) by apply list_elem_of_here. simpl.
  apply IH. intros a' el' Hin. apply H. by apply list_elem_of_further.
Qed.

(** ** Dictionaries *)

Lemma inherited_true key : inherited key = true <-> key ∈ objectPrototypeKeys.
Proof. apply existsb_streq. Qed.

Lemma protoKey_inherited : inherited protoKey = true.
Proof. reflexivity. Qed.

Lemma setProperty_lookup o key val k :
  setProperty o key val !! k
  = if streq key k && negb (streq k protoKey) then Some val else o !! k.
Proof.
  unfold setProperty. destruct (streq key protoKey) eqn:Hp.
  - apply streq_true in Hp. subst key.
    destruct (streq protoKey k) eqn:Hk; [|done].
    apply streq_true in Hk. subst k. by rewrite streq_refl.
  - apply streq_false in Hp. destruct (streq key k) eqn:Hk.
    + apply streq_true in Hk. subst k.
      rewrite (proj2 (streq_false key protoKey) Hp). simpl. apply lookup_insert_eq.
    + apply streq_false in Hk. simpl. by apply lookup_insert_ne.
Qed.

Lemma setProperty_proto o key val :
  o !! protoKey = None -> setProperty o key val !! protoKey = None.
Proof.
  intros H. rewrite setProperty_lookup, streq_refl. simpl. by rewrite andb_false_r.
Qed.

Lemma getProperty_own o key s : o !! key = Some s -> getProperty o key = Some (Str s).
Proof. intros H. unfold getProperty. by rewrite H. Qed.

Lemma getProperty_member o key :
  o !! key = None -> inherited key = true -> getProperty o key = Some (Member key).
Proof. intros H Hi. unfold getProperty. by rewrite H, Hi. Qed.

Lemma getProperty_undefined o key :
  o !! key = None -> inherited key = false -> getProperty o key = None.
Proof. intros H Hi. unfold getProperty. by rewrite H, Hi. Qed.

(** ** Selector texts *)

Lemma isCssIdentifier_units s : isCssIdentifier s = true -> forallb isNameUnit s = true.
Proof.
  destruct s as [|c r]; [done|]. simpl. intros H.
  apply andb_true_iff in H as [Hc Hr]. unfold isNameUnit at 1. by rewrite Hc, Hr.
Qed.

Lemma isCssIdentifier_no_colon s : isCssIdentifier s = true -> colon ∉ s.
Proof.
  intros H. apply isCssIdentifier_units in H.
  intros Hin. apply list_elem_of_In in Hin.
  by apply (proj1 (forallb_forall _ _) H) in Hin.
Qed.

Lemma attributeValue_name value :
  forallb isNameUnit value = true -> attributeValue true value = Ok value.
Proof. intros H. unfold attributeValue. by rewrite H. Qed.

Lemma attributeValue_identifier value :
  isCssIdentifier value = true -> attributeValue false value = Ok value.
Proof. intros H. unfold attributeValue. by rewrite H. Qed.

Lemma dotAfterName_not_name value :
  dotAfterName value = true -> forallb isNameUnit value = false.
Proof.
  induction value as [|c r IH]; [done|]. simpl.
  destruct (N.eqb_spec c dot) as [->|_]; [done|].
  intros H. apply andb_true_iff in H as [Hc Hr]. by rewrite Hc, (IH Hr).
Qed.

(** A value with a dot after name units makes the text no selector. *)
Lemma attributeValue_dotted afterEscape value :
  dotAfterName value = true -> attributeValue afterEscape value = Throw SyntaxError.
Proof.
  intros H. unfold attributeValue. rewrite H.
  pose proof (dotAfterName_not_name value H) as Hn.
  destruct afterEscape; [by rewrite Hn|].
  destruct (isCssIdentifier value) eqn:Hi; [|done].
  apply isCssIdentifier_units in Hi. congruence.
Qed.

(** ** getMetas on a name that ends in its colon *)

Lemma dc_has_no_colon : colon ∉ js "dc".
Proof.
  intros H. apply elem_of_cons in H as [H|H]; [discriminate|].
  apply elem_of_cons in H as [H|H]; [discriminate|]. by apply elem_of_nil in H.
Qed.

Lemma getMetas_colon_last doc prefix :
  colon ∉ prefix -> getMetas doc (prefix ++ [colon]) = Ok None.
Proof.
  intros H. unfold getMetas.
  rewrite (indexOf_app_fresh colon prefix [] H), length_app. simpl.
  destruct (Z.leb_spec 0 (Z.of_nat (List.length prefix))); [|lia].
  destruct (Z.leb_spec (Z.of_nat (List.length prefix + 1) - 1)
              (Z.of_nat (List.length prefix))); [done|lia].
Qed.

(** [getMetas] returns [null] for these names only. *)
Lemma getMetas_null_iff doc name :
  getMetas doc name = Ok None
  <-> exists prefix, name = prefix ++ [colon] /\ colon ∉ prefix.
Proof.
  split; [|intros (prefix & -> & H); by apply getMetas_colon_last].
  unfold getMetas.
  assert (forall (tag : jsstring) (keep : list Element -> list Element),
            (name0 <- typeSelector tag ;;
             Ok (Some (keep (querySelectorAll doc
                               (SelUnder (js "metadata") name0 AnyAttributes)))))
            <> Ok None) as Hquery.
  { intros tag keep. unfold typeSelector. by destruct (isCssIdentifier tag). }
  destruct (Z.leb_spec 0 (indexOf colon name)) as [Hfound|Hnot].
  - destruct (Z.leb_spec (Z.of_nat (List.length name) - 1) (indexOf colon name))
      as [Hlast|_].
    + intros _.
      destruct (indexOf_found colon name Hfound) as (before & after & -> & Hfresh).
      rewrite (indexOf_app_fresh colon before after Hfresh), length_app in Hlast.
      simpl in Hlast. exists before. split; [|done].
      destruct after; [done|simpl in Hlast; lia].
    + simpl. destruct (Z.ltb_spec (indexOf colon name) 0); [lia|].
      intros Hq. exfalso. revert Hq.
      apply (Hquery _ (List.filter (fun el => streq (tagName el) name))).
  - simpl. destruct (Z.ltb_spec (indexOf colon name) 0); [|lia].
    intros Hq. exfalso. revert Hq. apply (Hquery _ (fun els => els)).
Qed.



(** ** getMetas on a qualified name *)

Lemma getMetas_qualified doc prefix local :
  colon ∉ prefix -> isCssIdentifier local = true ->
  getMetas doc (prefix ++ colon :: local) = Ok (Some (qualifiedElements doc prefix local)).
Proof.
  intros Hp Hl. unfold getMetas, qualifiedElements.
  rewrite (indexOf_app_fresh colon prefix local Hp), length_app. simpl.
  destruct (Z.leb_spec 0 (Z.of_nat (List.length prefix))); [|lia].
  destruct (Z.leb_spec (Z.of_nat (List.length prefix + S (List.length local)) - 1)
              (Z.of_nat (List.length prefix))) as [Hle|_].
  { destruct local; [done|simpl in Hle; lia]. }
  destruct (Z.ltb_spec (Z.of_nat (List.length prefix)) 0); [lia|].
  simpl. unfold slice.
  replace (Z.to_nat (Z.of_nat (List.length prefix) + 1))
    with (List.length (prefix ++ [colon])) by (rewrite length_app; simpl; lia).
  replace (prefix ++ colon :: local) with ((prefix ++ [colon]) ++ local)
    by (by rewrite <- app_assoc).
  rewrite drop_app_length. unfold typeSelector. by rewrite Hl.
Qed.

Lemma getMetas_dc doc local :
  isCssIdentifier local = true ->
  getMetas doc (js "dc:" ++ local) = Ok (Some (qualifiedElements doc (js "dc") local)).
Proof.
  intros Hl. by apply (getMetas_qualified doc (js "dc") local dc_has_no_colon).
Qed.

Lemma getMetaText_dc doc local :
  isCssIdentifier local = true ->
  getMetaText doc (js "dc:" ++ local)
  = Ok (textContent <$> head (qualifiedElements doc (js "dc") local)).
Proof.
  intros Hl. unfold getMetaText, getMeta. rewrite (getMetas_dc doc local Hl).
  by destruct (qualifiedElements doc (js "dc") local).
Qed.

(** ** parseCoverImage *)

Lemma coverFromMetadata_raises doc :
  isValidCoverImageElement
    (manifestItem doc (AttrIncludes (js "properties") (js "cover-image"))) = None ->
  isValidCoverImageElement
    (metadataMeta doc (AttrEquals (js "name") (js "cover-image"))) = None ->
  metadataMeta doc (AttrEquals (js "name") (js "cover")) = None ->
  coverFromMetadata doc = Throw TypeError.
Proof.
  intros H1 H2 H3. unfold coverFromMetadata. by rewrite H1, H2, H3.
Qed.

(** C1 fails on the code: in a document where neither the manifest item
    with the [cover-image] property nor [meta[name=cover-image]] is a valid
    cover and that has no [meta[name=cover]], [parseCoverImage] reads
    [getAttribute] of [null] and raises a TypeError; the items with the
    conventional ids are never looked at and no empty descriptor is
    returned. *)
Theorem parseCoverImage_raises_without_cover_meta (doc : Document) :
  isValidCoverImageElement
    (manifestItem doc (AttrIncludes (js "properties") (js "cover-image"))) = None ->
  isValidCoverImageElement
    (metadataMeta doc (AttrEquals (js "name") (js "cover-image"))) = None ->
  metadataMeta doc (AttrEquals (js "name") (js "cover")) = None ->
  parseCoverImage doc = Throw TypeError.
Proof.
  intros H1 H2 H3. unfold parseCoverImage.
  by rewrite (coverFromMetadata_raises doc H1 H2 H3).
Qed.

Lemma parseCoverImage_raises_witness :
  parseCoverImage coverById = Throw TypeError
  /\ parseCoverImage untitled = Throw TypeError.
Proof.
  split.
  - apply (parseCoverImage_raises_without_cover_meta coverById); reflexivity.
  - apply (parseCoverImage_raises_without_cover_meta untitled); reflexivity.
Defined.

(** What the last strategy would have found in [coverById]. *)
Lemma coverFromIds_finds_cover :
  isValidCoverImageElement (coverFromIds coverById None) = Some (js "image/jpeg").
Proof. reflexivity. Qed.

(** ** setISBN *)

Section ISBN.

Variable formatISBN : jsstring -> jsstring.

Lemma setISBN_10 o text :
  List.length (digitsOnly text) = 10%nat ->
  setISBN formatISBN o text = setField o (js "ISBN-10") (formatISBN (digitsOnly text)).
Proof. intros H. unfold setISBN. by rewrite H. Qed.

Lemma setISBN_13 o text :
  List.length (digitsOnly text) = 13%nat ->
  setISBN formatISBN o text = setField o (js "ISBN-13") (formatISBN (digitsOnly text)).
Proof. intros H. unfold setISBN. by rewrite H. Qed.

Lemma setISBN_other o text :
  List.length (digitsOnly text) <> 10%nat ->
  List.length (digitsOnly text) <> 13%nat ->
  setISBN formatISBN o text = o.
Proof.
  intros H10 H13. unfold setISBN.
  destruct (Nat.eqb_spec (List.length (digitsOnly text)) 10); [done|].
  by destruct (Nat.eqb_spec (List.length (digitsOnly text)) 13).
Qed.

(** C2: [setISBN] keeps the digits of the text.  With exactly ten of them
    it stores their hyphenated form under [ISBN-10], with exactly thirteen
    under [ISBN-13], and leaves every other key and the URIs as they were;
    with any other count it leaves the identifier set unchanged.  It does
    not raise. *)
Theorem setISBN_normalizes (o : IdentifierSet) (text : jsstring) :
  let val := digitsOnly text in
  Forall (fun c => isDigit c = true) val
  /\ val = List.filter isDigit text
  /\ (List.length val = 10%nat ->
      fields (setISBN formatISBN o text) !! js "ISBN-10" = Some (formatISBN val)
      /\ (forall key, key <> js "ISBN-10" ->
          fields (setISBN formatISBN o text) !! key = fields o !! key)
      /\ URIs (setISBN formatISBN o text) = URIs o)
  /\ (List.length val = 13%nat ->
      fields (setISBN formatISBN o text) !! js "ISBN-13" = Some (formatISBN val)
      /\ (forall key, key <> js "ISBN-13" ->
          fields (setISBN formatISBN o text) !! key = fields o !! key)
      /\ URIs (setISBN formatISBN o text) = URIs o)
  /\ (List.length val <> 10%nat -> List.length val <> 13%nat ->
      setISBN formatISBN o text = o).
Proof.
  intros val. split; [apply digitsOnly_digits|]. split; [done|].
  split; [|split].
  - intros H. rewrite (setISBN_10 o text H). simpl. split; [apply lookup_insert_eq|].
    split; [|done]. intros key Hk. by apply lookup_insert_ne.
  - intros H. rewrite (setISBN_13 o text H). simpl. split; [apply lookup_insert_eq|].
    split; [|done]. intros key Hk. by apply lookup_insert_ne.
  - apply setISBN_other.
Qed.

End ISBN.
(** ** refineMeta *)

Lemma attributeValue_Ok afterEscape value v :
  attributeValue afterEscape value = Ok v -> v = value.
Proof.
  unfold attributeValue.
  destruct (if afterEscape then _ else _); [by intros [= <-]|].
  by destruct (dotAfterName value).
Qed.

Section Refinement.

Variable doc : Document.
Variable element : Element.
Variable dropSchemes : bool.

(** The first loop leaves under every key the value of the last attribute
    stored there, and nothing under [__proto__]. *)
Lemma own_fold_lookup (names : list jsstring) (m : gmap jsstring jsstring)
    (key : jsstring) :
  fold_left (ownAttributeStep element dropSchemes) names m !! key
  = if streq key protoKey then m !! key
    else match last (List.filter (fun a => streq (keyOf dropSchemes a) key) names) with
         | Some a => Some (default [] (getAttribute element a))
         | None => m !! key
         end.
Proof.
  revert m. induction names as [|a names IH]; intros m.
  - by destruct (streq key protoKey).
  - cbn [fold_left]. rewrite IH, last_filter_cons.
    unfold ownAttributeStep. fold (keyOf dropSchemes a).
    rewrite setProperty_lookup.
    destruct (streq key protoKey) eqn:Hp; [by rewrite andb_false_r|].
    rewrite andb_true_r.
    destruct (last (List.filter _ names)); [done|].
    by destruct (streq (keyOf dropSchemes a) key).
Qed.

Lemma own_lookup (key : jsstring) :
  fold_left (ownAttributeStep element dropSchemes) (getAttributeNames element) ∅ !! key
  = ownProperty dropSchemes element key.
Proof.
  rewrite own_fold_lookup. unfold ownProperty.
  destruct (streq key protoKey); [apply lookup_empty|].
  destruct (last _) as [a|] eqn:Hlast; [|by rewrite lookup_empty].
  cbn [mbind option_bind].
  assert (a ∈ getAttributeNames element) as Hin.
  { apply last_Some in Hlast as [l' Hl'].
    assert (In a (List.filter (fun a0 => streq (keyOf dropSchemes a0) key)
                    (getAttributeNames element))) as Hf
      by (rewrite Hl'; apply in_or_app; right; by left).
    apply filter_In in Hf as [Hf _]. by apply list_elem_of_In. }
  unfold getAttributeNames, getAttribute in *.
  apply assoc_names in Hin as [v Hv]. by rewrite Hv.
Qed.

(** In a flat view the second loop always returns, and leaves under every
    key the text of the last [meta] that sets it. *)
Lemma refining_flat_loop (els : list Element) (m : gmap jsstring jsstring) :
  exists m',
    loop (refiningStep true dropSchemes) els (Flat m) = Ok (Flat m')
    /\ forall key,
         m' !! key
         = match last (List.filter (setsProperty dropSchemes key) els) with
           | Some meta => Some (textContent meta)
           | None => m !! key
           end.
Proof.
  revert m. induction els as [|el els IH]; intros m.
  - by exists m.
  - cbn [loop].
    assert (exists m1, refiningStep true dropSchemes (Flat m) el = Ok (Flat m1)
              /\ forall key, m1 !! key
                   = if setsProperty dropSchemes key el then Some (textContent el)
                     else m !! key) as (m1 & -> & Hstep).
    { unfold refiningStep, setsProperty.
      destruct (getAttribute el (js "property")) as [attr|]; [|by exists m].
      destruct (truthy attr); cbn [negb andb]; [|by exists m].
      cbn [viewSet]. fold (keyOf dropSchemes attr). eexists. split; [done|].
      intros key. apply setProperty_lookup. }
    cbn [bind]. destruct (IH m1) as (m' & -> & Hlook).
    exists m'. split; [done|]. intros key. rewrite Hlook, last_filter_cons, Hstep.
    destruct (last (List.filter _ els)); [done|].
    by destruct (setsProperty dropSchemes key el).
Qed.







(** The id that the query uses, and the elements it finds. *)
Lemma refineMeta_unfold (flatten : bool) :
  let own := fold_left (ownAttributeStep element dropSchemes)
               (getAttributeNames element) ∅ in
  let o := if flatten then Flat own else Grouped {[ noScheme := own ]} in
  refineMeta doc element flatten dropSchemes
  = if present (ownProperty dropSchemes element (js "id"))
    then
      value <- attributeValue true (default [] (ownProperty dropSchemes element (js "id"))) ;;
      o <- loop (refiningStep flatten dropSchemes) (refiningMetas doc value) o ;;
      Ok (Some o)
    else Ok (Some o).
Proof.
  cbv zeta. unfold refineMeta. rewrite (own_lookup (js "id")).
  by destruct (present (ownProperty dropSchemes element (js "id"))).
Qed.

Lemma refinementsOf_present :
  refinementsOf doc dropSchemes element
  = if present (ownProperty dropSchemes element (js "id"))
    then refiningMetas doc (default [] (ownProperty dropSchemes element (js "id")))
    else [].
Proof.
  unfold refinementsOf.
  destruct (ownProperty dropSchemes element (js "id")) as [i|]; [|done].
  rewrite present_Some. by destruct (truthy i).
Qed.


(** The flat view, when [refineMeta] returns. *)
Lemma refineMeta_flat_Ok view :
  refineMeta doc element true dropSchemes = Ok view ->
  exists props,
    view = Some (Flat props)
    /\ forall key,
         props !! key
         = match last (List.filter (setsProperty dropSchemes key)
                         (refinementsOf doc dropSchemes element)) with
           | Some meta => Some (textContent meta)
           | None => ownProperty dropSchemes element key
           end.
Proof.
  rewrite refineMeta_unfold, refinementsOf_present. cbv zeta.
  destruct (present _).
  - intros H. apply bind_Ok in H as (value & Hvalue & H).
    apply attributeValue_Ok in Hvalue. subst value.
    destruct (refining_flat_loop (refiningMetas doc
                (default [] (ownProperty dropSchemes element (js "id"))))
                (fold_left (ownAttributeStep element dropSchemes)
                   (getAttributeNames element) ∅)) as (props & Hloop & Hlook).
    rewrite Hloop in H. injection H as <-. exists props. split; [done|].
    intros key. by rewrite Hlook, own_lookup.
  - intros [= <-]. eexists. split; [done|]. intros key. apply own_lookup.
Qed.

Lemma refineMeta_flat_returns :
  hasPlainId dropSchemes element = true ->
  exists view, refineMeta doc element true dropSchemes = Ok view.
Proof.
  intros Hid. rewrite refineMeta_unfold. cbv zeta.
  destruct (present _); [|by eexists].
  rewrite (attributeValue_name _ Hid). cbn [bind].
  destruct (refining_flat_loop (refiningMetas doc
              (default [] (ownProperty dropSchemes element (js "id"))))
              (fold_left (ownAttributeStep element dropSchemes)
                 (getAttributeNames element) ∅)) as (props & -> & _).
  by eexists.
Qed.



(** An id with a dot after name units makes [refineMeta] raise. *)
Lemma refineMeta_dotted flatten id :
  ownProperty dropSchemes element (js "id") = Some id ->
  dotAfterName id = true ->
  refineMeta doc element flatten dropSchemes = Throw SyntaxError.
Proof.
  intros Hid Hdot. rewrite refineMeta_unfold. cbv zeta. rewrite Hid, present_Some.
  assert (truthy id = true) as -> by (by destruct id).
  change (default [] (Some id)) with id.
  by rewrite (attributeValue_dotted true id Hdot).
Qed.

End Refinement.






(** The identifier with the dotted id is an element of its document. *)
Example dottedId_element :
  qualifiedElements dottedId (js "dc") (js "identifier")
  = [mkElement (js "dc:identifier") [(js "id", js "pub.id")] (js "t")
       [js "metadata"; js "package"]].
Proof. reflexivity. Qed.

(** ** Schemes and white space *)

Lemma afterLastColon_none s : colon ∉ s -> afterLastColon s = None.
Proof.
  induction s as [|c r IH]; [done|]. intros H.
  apply not_elem_of_cons in H as [Hc Hr]. simpl. rewrite (IH Hr).
  destruct (isLineTerminator c); [done|].
  by destruct (N.eqb_spec c colon).
Qed.

Lemma afterLastColon_qualified prefix local :
  forallb notLineTerminator prefix = true -> colon ∉ local ->
  afterLastColon (prefix ++ colon :: local) = Some local.
Proof.
  intros Hp Hl. induction prefix as [|c r IH]; cbn [app afterLastColon].
  - by rewrite (afterLastColon_none local Hl).
  - cbn [forallb] in Hp. apply andb_true_iff in Hp as [Hc Hr].
    apply negb_true_iff in Hc. by rewrite Hc, (IH Hr).
Qed.

(** X16: the scheme that [dropSchemes] removes.  From a name
    [prefix:local], with a prefix that is not empty and holds no line
    terminator and a local part without colon, [local] is left; a name
    without colon is left as it is, and so is a name whose only colon is
    its first unit. *)
Theorem stripScheme_leaves_local_part (prefix local : jsstring) :
  forallb notLineTerminator prefix = true -> colon ∉ local ->
  (prefix <> [] -> stripScheme (prefix ++ colon :: local) = local)
  /\ stripScheme local = local
  /\ stripScheme (colon :: local) = colon :: local.
Proof.
  intros Hp Hl. split; [|split].
  - destruct prefix as [|c r]; [done|]. intros _. cbn [app stripScheme].
    cbn [forallb] in Hp. apply andb_true_iff in Hp as [Hc Hr].
    apply negb_true_iff in Hc. by rewrite Hc, (afterLastColon_qualified r local Hr Hl).
  - destruct local as [|c r]; [done|]. simpl.
    apply not_elem_of_cons in Hl as [_ Hr].
    rewrite (afterLastColon_none r Hr). by destruct (isLineTerminator c).
  - cbn [stripScheme]. by rewrite (afterLastColon_none local Hl).
Qed.

Lemma stripScheme_witness :
  stripScheme (js "opf:role") = js "role" /\ stripScheme (js "role") = js "role".
Proof.
  assert (colon ∉ js "role") as Hlocal
    by (apply (bool_decide_unpack _); by vm_compute).
  destruct (stripScheme_leaves_local_part (js "opf") (js "role") eq_refl Hlocal)
    as (Hqualified & Hplain & _).
  split; [apply Hqualified; discriminate|exact Hplain].
Defined.

Lemma splitRuns_pieces isSep prev s :
  Forall (fun piece => forallb (fun c => negb (isSep c)) piece = true)
    (splitRuns isSep prev s)
  /\ concat (splitRuns isSep prev s) = List.filter (fun c => negb (isSep c)) s
  /\ splitRuns isSep prev s <> [].
Proof.
  revert prev. induction s as [|c r IH]; intros prev.
  - split; [by repeat constructor|split; done].
  - simpl. destruct (isSep c) eqn:Hc; simpl.
    + destruct prev.
      * apply IH.
      * destruct (IH true) as (Hall & Hcat & Hne).
        split; [by constructor|split; done].
    + destruct (IH false) as (Hall & Hcat & Hne).
      destruct (splitRuns isSep false r) as [|piece pieces]; [done|].
      apply Forall_cons in Hall as [Hp Hps].
      split; [|split; [|done]].
      * constructor; [|done]. simpl. by rewrite Hc.
      * simpl in *. by rewrite Hcat.
Qed.

Lemma splitRuns_no_separator isSep s :
  forallb (fun c => negb (isSep c)) s = true -> splitRuns isSep false s = [s].
Proof.
  induction s as [|c r IH]; [done|]. simpl. intros H.
  apply andb_true_iff in H as [Hc Hr]. apply negb_true_iff in Hc.
  by rewrite Hc, (IH Hr).
Qed.

(** X17: [name.split(/\s+/)] as [getAuthors] uses it.  There is always at
    least one piece; no piece holds white space; the pieces put together
    are the units of the name that are not white space, in their order; and
    a name without white space is its own single piece, so its filing form
    is the name itself. *)
Theorem split_pieces (display : jsstring) :
  split display <> []
  /\ Forall (fun piece => forallb notSpace piece = true) (split display)
  /\ concat (split display) = List.filter notSpace display
  /\ (forallb notSpace display = true ->
      split display = [display] /\ lastFirst display = display).
Proof.
  destruct (splitRuns_pieces isSpace false display) as (Hall & Hcat & Hne).
  split; [done|]. split; [done|]. split; [done|].
  intros H. assert (split display = [display]) as Hsplit
    by (by apply splitRuns_no_separator).
  split; [done|]. unfold lastFirst. by rewrite Hsplit.
Qed.

Lemma no_meta_sets_proto dropSchemes els :
  List.filter (setsProperty dropSchemes protoKey) els = [].
Proof.
  induction els as [|el els IH]; [done|].
  simpl. rewrite IH. unfold setsProperty.
  destruct (getAttribute el (js "property")); [|done].
  rewrite streq_refl. cbn [negb]. by rewrite andb_false_r.
Qed.

(** X18: the flat view of [refineMeta], for an element whose id, among its
    own properties, is missing, empty or made of letters, digits, hyphens
    and underscores.  [refineMeta] returns, and every key holds the text of
    the last refining [meta] that sets it and, when no [meta] sets it, the
    value of the last own attribute stored under it; with [dropSchemes] the
    keys are the names without scheme, and nothing is stored under
    [__proto__].  The refining [meta] elements are those whose [refines] is
    [#] and that id. *)
Theorem refineMeta_flat_last_wins (doc : Document) (element : Element)
    (dropSchemes : bool) :
  hasPlainId dropSchemes element = true ->
  exists props,
    refineMeta doc element true dropSchemes = Ok (Some (Flat props))
    /\ (forall key,
          props !! key
          = match last (List.filter (setsProperty dropSchemes key)
                          (refinementsOf doc dropSchemes element)) with
            | Some meta => Some (textContent meta)
            | None => ownProperty dropSchemes element key
            end)
    /\ props !! protoKey = None.
Proof.
  intros Hid.
  destruct (refineMeta_flat_returns doc element dropSchemes Hid) as (view & Hview).
  destruct (refineMeta_flat_Ok doc element dropSchemes view Hview) as (props & -> & Hlook).
  exists props. split; [done|]. split; [done|].
  rewrite Hlook.
  rewrite no_meta_sets_proto. unfold ownProperty. by rewrite streq_refl.
Qed.

Lemma refineMeta_flat_witness :
  exists props,
    refineMeta sampleTitles
      (mkElement (js "dc:title") [(js "id", js "t2")] (js "Bar")
         [js "metadata"; js "package"]) true true
    = Ok (Some (Flat props))
    /\ props !! js "title-type" = Some (js "subtitle")
    /\ props !! js "id" = Some (js "t2").
Proof.
  destruct (refineMeta_flat_last_wins sampleTitles
              (mkElement (js "dc:title") [(js "id", js "t2")] (js "Bar")
                 [js "metadata"; js "package"]) true eq_refl)
    as (props & Hview & Hlook & _).
  exists props. split; [exact Hview|].
  split; [exact (Hlook (js "title-type"))|exact (Hlook (js "id"))].
Defined.
(** ** parseIdentifiers *)

Lemma identifier_is_identifier : isCssIdentifier (js "identifier") = true.
Proof. reflexivity. Qed.

Section Identifiers.

Variable formatISBN : jsstring -> jsstring.
Variable validateISBN : jsstring -> bool.
Variable printMember : jsstring -> jsstring.

Lemma setField_twice o key v w :
  setField (setField o key v) key w = setField o key w.
Proof. unfold setField. simpl. by rewrite insert_insert_eq. Qed.

Lemma onix_code_not_empty code label :
  assoc code onixCodeList5 = Some label -> truthy code = true.
Proof. destruct code; [discriminate|done]. Qed.

(** C3, as the code has it: for an identifier that the ONIX branch types
    as [ISBN-10] or [ISBN-13] (its [opf:scheme] is not ISBN and its refining
    [meta] of scheme [onix:codelist5] holds code 2 or 15), the turn stores
    [formatISBN] of the digits of the text under the label that the code
    list gives, whatever the number of digits, and discards nothing. *)
Theorem onix_isbn_stored_under_label (doc : Document) (epubID : option jsstring)
    (o : IdentifierSet) (el : Element) (label : jsstring) :
  hasIsbnScheme el = false ->
  onixLabel doc el = Some label ->
  label = js "ISBN-10" \/ label = js "ISBN-13" ->
  exists stored,
    identifierStep formatISBN printMember doc epubID o el = Ok stored
    /\ stored = setField (uuidAndUriStep epubID o el) label
                  (formatISBN (digitsOnly (textContent el)))
    /\ fields stored !! label = Some (formatISBN (digitsOnly (textContent el))).
Proof.
  intros Hscheme Hlabel Hisbn. eexists. split; [|split; [reflexivity|]].
  - unfold onixLabel in Hlabel.
    destruct (refineMeta doc el false false) as [[attrs|]| |] eqn:Hattrs; try done.
    apply bind_Some in Hlabel as (group & Hgroup & Hlabel).
    apply bind_Some in Hlabel as (code & Hcode & Hlabel).
    unfold identifierStep. rewrite Hscheme, Hattrs. cbn [bind].
    rewrite Hgroup, Hcode.
    cbn [present negb default]. rewrite (onix_code_not_empty code label Hlabel).
    cbn [negb]. change (id code) with code. rewrite Hlabel, setField_twice.
    by destruct Hisbn as [-> | ->].
  - simpl. apply lookup_insert_eq.
Qed.

Lemma uuidFallback_nothing : uuidFallback formatISBN validateISBN noIdentifiers = noIdentifiers.
Proof. reflexivity. Qed.

Lemma parseIdentifiers_scanned doc :
  parseIdentifiers formatISBN validateISBN printMember doc
  = bind (scannedIdentifiers formatISBN printMember doc)
      (fun o => Ok (uuidFallback formatISBN validateISBN o)).
Proof.
  unfold parseIdentifiers, scannedIdentifiers.
  destruct (querySelector doc SelPackage); [|done].
  change (js "dc:identifier") with (js "dc:" ++ js "identifier").
  rewrite (getMetas_dc doc (js "identifier") identifier_is_identifier). cbn [bind].
  by destruct (qualifiedElements doc (js "dc") (js "identifier")).
Qed.


End Identifiers.

Lemma onix_isbn_stored_under_label_witness :
  exists stored,
    identifierStep unhyphenated nativeCode onixTenDigits None noIdentifiers
      (mkElement (js "dc:identifier") [(js "id", js "pub-id")]
         (js "0-330-32002-5") [js "metadata"; js "package"])
    = Ok stored
    /\ fields stored !! js "ISBN-13" = Some (js "0330320025").
Proof.
  destruct (onix_isbn_stored_under_label unhyphenated nativeCode onixTenDigits None noIdentifiers
              (mkElement (js "dc:identifier") [(js "id", js "pub-id")]
                 (js "0-330-32002-5") [js "metadata"; js "package"]) (js "ISBN-13"))
    as (stored & Hstep & _ & Hfield); [reflexivity | reflexivity | by right |].
  exists stored. split; [exact Hstep|exact Hfield].
Defined.

(** C3 as stated fails: with code 15 a text of ten digits is stored under
    [ISBN-13], not under the key of its digit count, and a text of five
    digits is stored too.  This holds for every ISBN library. *)
Lemma onix_label_ignores_digit_count :
  (List.length (digitsOnly (js "0-330-32002-5")) = 10%nat
   /\ forall formatISBN validateISBN printMember,
        exists r,
          parseIdentifiers formatISBN validateISBN printMember onixTenDigits = Ok r
          /\ fields r !! js "ISBN-10" = None
          /\ fields r !! js "ISBN-13" = Some (formatISBN (js "0330320025")))
  /\ (List.length (digitsOnly (js "urn:isbn:97807")) = 5%nat
      /\ forall formatISBN validateISBN printMember,
           exists r,
             parseIdentifiers formatISBN validateISBN printMember onixFiveDigits = Ok r
             /\ fields r !! js "ISBN-13" = Some (formatISBN (js "97807"))).
Proof.
  split; (split; [reflexivity|]); intros fmt val; eexists;
    (split; [reflexivity|]); try split; reflexivity.
Qed.


(** * Further properties of the resolver *)

(** ** The identifier loop *)

Lemma onix_label_not_uuid code label :
  assoc code onixCodeList5 = Some label -> label <> js "UUID".
Proof.
  intros H ->. apply assoc_values in H. revert H.
  apply (bool_decide_unpack (js "UUID" ∉ onixCodeList5.*2)). by vm_compute.
Qed.

Section IdentifierLoop.

Variable formatISBN : jsstring -> jsstring.
Variable validateISBN : jsstring -> bool.
Variable printMember : jsstring -> jsstring.
Variable doc : Document.
Variable epubID : option jsstring.

Lemma setISBN_URIs o t : URIs (setISBN formatISBN o t) = URIs o.
Proof.
  unfold setISBN. destruct (_ =? 10)%nat; [done|]. by destruct (_ =? 13)%nat.
Qed.

Lemma setISBN_other_key o t key :
  key <> js "ISBN-10" -> key <> js "ISBN-13" ->
  fields (setISBN formatISBN o t) !! key = fields o !! key.
Proof.
  intros H10 H13. unfold setISBN.
  destruct (_ =? 10)%nat; [by apply lookup_insert_ne|].
  destruct (_ =? 13)%nat; [by apply lookup_insert_ne|done].
Qed.

(** What one turn that returns does after its head: it writes under
    [ISBN-10], [ISBN-13], a label of the code list or the printed form of
    a member of [Object.prototype], and leaves the URIs. *)
Lemma identifierStep_tail o el o' :
  identifierStep formatISBN printMember doc epubID o el = Ok o' ->
  URIs o' = URIs (uuidAndUriStep epubID o el)
  /\ forall key, key ∉ onixCodeList5.*2 -> key ∉ printMember <$> objectPrototypeKeys ->
       fields o' !! key = fields (uuidAndUriStep epubID o el) !! key.
Proof.
  assert (js "ISBN-10" ∈ onixCodeList5.*2) as In10
    by (apply (bool_decide_unpack _); by vm_compute).
  assert (js "ISBN-13" ∈ onixCodeList5.*2) as In13
    by (apply (bool_decide_unpack _); by vm_compute).
  assert (forall o1 t key, key ∉ onixCodeList5.*2 ->
            key ∉ printMember <$> objectPrototypeKeys ->
            fields (setISBN formatISBN o1 t) !! key = fields o1 !! key) as Hset.
  { intros o1 t key Hk _. apply setISBN_other_key; intros ->; by apply Hk. }
  unfold identifierStep. generalize (uuidAndUriStep epubID o el) as o1. intros o1.
  destruct (hasIsbnScheme el);
    [intros [= <-]; split; [apply setISBN_URIs|apply Hset]|].
  destruct (refineMeta doc el false false) as [[attrs|]| |]; cbn [bind];
    [|by intros [= <-]|done|done].
  destruct (viewGroup attrs (js "onix:codelist5")) as [group|].
  - cbv zeta. destruct (negb (present (group !! js "identifier-type")));
      [by intros [= <-]|].
    destruct (assoc _ onixCodeList5) as [label|] eqn:Hlabel.
    + apply assoc_values in Hlabel.
      destruct (streq label (js "ISBN-10") || streq label (js "ISBN-13")).
      * intros [= <-]. split; [done|]. intros key Hk _. simpl.
        rewrite !lookup_insert_ne; [done|intros ->; by apply Hk..].
      * intros [= <-]. split; [done|]. intros key Hk _. simpl.
        rewrite lookup_insert_ne; [done|intros ->; by apply Hk].
    + destruct (inherited _) eqn:Hmember; [|by intros [= <-]].
      intros [= <-]. split; [done|]. intros key _ Hk. simpl.
      rewrite lookup_insert_ne; [done|]. intros <-. apply Hk.
      apply list_elem_of_fmap. eexists. split; [done|]. by apply inherited_true.
  - destruct (viewGroup attrs noScheme) as [group|]; [|by intros [= <-]].
    destruct (_ && _); intros [= <-]; [split; [apply setISBN_URIs|apply Hset]|done].
Qed.


Lemma uuidAndUriStep_UUID o el :
  fields (uuidAndUriStep epubID o el) !! js "UUID"
  = if isUniqueIdentifier epubID el then Some (textContent el) else fields o !! js "UUID".
Proof.
  unfold uuidAndUriStep, isUniqueIdentifier.
  destruct (present epubID && _);
    destruct (bool_decide (getAttribute el (js "opf:scheme") = Some (js "URI")));
    simpl; by rewrite ?lookup_insert_eq.
Qed.

Lemma uuidAndUriStep_keys o el key :
  is_Some (fields (uuidAndUriStep epubID o el) !! key) ->
  key = js "UUID" \/ is_Some (fields o !! key).
Proof.
  unfold uuidAndUriStep.
  destruct (present epubID && _);
    destruct (bool_decide (getAttribute el (js "opf:scheme") = Some (js "URI")));
    simpl; rewrite ?lookup_insert; try case_decide; eauto.
Qed.


Lemma loop_UUID els o r :
  js "UUID" ∉ printMember <$> objectPrototypeKeys ->
  loop (identifierStep formatISBN printMember doc epubID) els o = Ok r ->
  fields r !! js "UUID"
  = match last (List.filter (isUniqueIdentifier epubID) els) with
    | Some el => Some (textContent el)
    | None => fields o !! js "UUID"
    end.
Proof.
  assert (js "UUID" ∉ onixCodeList5.*2) as Hout
    by (apply (bool_decide_unpack _); by vm_compute).
  intros Hprinted.
  revert o. induction els as [|el els IH]; intros o; [by intros [= <-]|].
  intros Hloop. apply loop_cons_Ok in Hloop as (o1 & Hstep & Hloop).
  rewrite (IH o1 Hloop), last_filter_cons.
  destruct (identifierStep_tail o el o1 Hstep) as [_ ->]; [|done|done].
  rewrite uuidAndUriStep_UUID.
  destruct (last (List.filter _ els)); [done|].
  by destruct (isUniqueIdentifier epubID el).
Qed.

Lemma loop_keys els o r key :
  loop (identifierStep formatISBN printMember doc epubID) els o = Ok r ->
  is_Some (fields r !! key) ->
  key = js "UUID" \/ key ∈ onixCodeList5.*2
  \/ key ∈ printMember <$> objectPrototypeKeys \/ is_Some (fields o !! key).
Proof.
  revert o. induction els as [|el els IH]; intros o;
    [intros [= <-]; by right; right; right|].
  intros Hloop H. apply loop_cons_Ok in Hloop as (o1 & Hstep & Hloop).
  destruct (IH o1 Hloop H) as [?|[?|[?|H1]]];
    [by left|by right; left|by right; right; left|].
  destruct (decide (key ∈ onixCodeList5.*2)) as [?|Hout]; [by right; left|].
  destruct (decide (key ∈ printMember <$> objectPrototypeKeys)) as [?|Hplain];
    [by right; right; left|].
  destruct (identifierStep_tail o el o1 Hstep) as [_ Hsame].
  rewrite (Hsame key Hout Hplain) in H1.
  apply uuidAndUriStep_keys in H1 as [?|?]; [by left|by right; right; right].
Qed.

Lemma uuidFallback_URIs o : URIs (uuidFallback formatISBN validateISBN o) = URIs o.
Proof.
  unfold uuidFallback. destruct (_ && _); [|done]. cbv zeta.
  destruct (validateISBN _); [apply setISBN_URIs|done].
Qed.

Lemma uuidFallback_other_key o key :
  key <> js "ISBN-10" -> key <> js "ISBN-13" ->
  fields (uuidFallback formatISBN validateISBN o) !! key = fields o !! key.
Proof.
  intros H10 H13. unfold uuidFallback. destruct (_ && _); [|done]. cbv zeta.
  destruct (validateISBN _); [by apply setISBN_other_key|done].
Qed.

End IdentifierLoop.

(** ** Ancestors are elements of the document *)





(** ** parseIdentifiers: URIs, UUID and keys *)

Section IdentifierResults.

Variable formatISBN : jsstring -> jsstring.
Variable validateISBN : jsstring -> bool.
Variable printMember : jsstring -> jsstring.

Local Abbreviation identifiersOf doc := (parseIdentifiers formatISBN validateISBN printMember doc).

(** What [parseIdentifiers] returns is the last resort applied to what
    the loop over the identifiers returned. *)
Lemma parseIdentifiers_Ok doc ids :
  identifiersOf doc = Ok ids ->
  exists o,
    scannedIdentifiers formatISBN printMember doc = Ok o
    /\ ids = uuidFallback formatISBN validateISBN o.
Proof.
  rewrite parseIdentifiers_scanned. intros H.
  apply bind_Ok in H as (o & Ho & H). injection H as <-. by exists o.
Qed.

Lemma scanned_loop doc pkg :
  querySelector doc SelPackage = Some pkg ->
  scannedIdentifiers formatISBN printMember doc
  = loop (identifierStep formatISBN printMember doc (getAttribute pkg (js "unique-identifier")))
      (qualifiedElements doc (js "dc") (js "identifier")) noIdentifiers.
Proof. intros Hpkg. unfold scannedIdentifiers, identifierLoop. by rewrite Hpkg. Qed.

Lemma scanned_without_package doc :
  querySelector doc SelPackage = None ->
  scannedIdentifiers formatISBN printMember doc = Ok noIdentifiers.
Proof. intros H. unfold scannedIdentifiers. by rewrite H. Qed.


(** X2: when [parseIdentifiers] returns, the [UUID] of the identifiers is
    the text of the last [dc:identifier] whose [id] equals the
    [unique-identifier] of the package, when that attribute is set and not
    empty; it is missing when no identifier has that id.  No other branch
    of the loop and no ISBN rule writes it, as long as the engine prints no
    member of [Object.prototype] as [UUID]. *)
Theorem parseIdentifiers_UUID_is_last_match (doc : Document) (pkg : Element)
    (ids : IdentifierSet) :
  js "UUID" ∉ printMember <$> objectPrototypeKeys ->
  querySelector doc SelPackage = Some pkg ->
  identifiersOf doc = Ok ids ->
  fields ids !! js "UUID"
  = textContent <$>
      last (List.filter (isUniqueIdentifier (getAttribute pkg (js "unique-identifier")))
              (qualifiedElements doc (js "dc") (js "identifier"))).
Proof.
  intros Hprinted Hpkg H. apply parseIdentifiers_Ok in H as (o & Hscan & ->).
  rewrite uuidFallback_other_key by done.
  rewrite (scanned_loop doc pkg Hpkg) in Hscan.
  rewrite (loop_UUID _ _ _ _ _ _ _ Hprinted Hscan).
  by destruct (last _).
Qed.

(** X3: when [parseIdentifiers] returns, every key of the identifiers is
    [UUID], a label of the ONIX code list 5 ([ISBN-10] and [ISBN-13] are
    two of them), or what the engine prints for a member of
    [Object.prototype]: an identifier type such as [constructor] is no
    code of the list, and still the text is stored. *)
Theorem parseIdentifiers_keys_are_labels (doc : Document) (ids : IdentifierSet)
    (key : jsstring) :
  identifiersOf doc = Ok ids ->
  is_Some (fields ids !! key) ->
  key = js "UUID" \/ key ∈ onixCodeList5.*2
  \/ key ∈ printMember <$> objectPrototypeKeys.
Proof.
  intros Hids H. apply parseIdentifiers_Ok in Hids as (o & Hscan & ->).
  destruct (decide (key ∈ onixCodeList5.*2)) as [?|Hout]; [by right; left|].
  rewrite uuidFallback_other_key in H.
  - destruct (querySelector doc SelPackage) as [pkg|] eqn:Hpkg.
    + rewrite (scanned_loop doc pkg Hpkg) in Hscan.
      destruct (loop_keys _ _ _ _ _ _ _ _ Hscan H) as [?|[?|[?|[? Hnone]]]];
        [by left|done|by right; right|done].
    + rewrite (scanned_without_package doc Hpkg) in Hscan. injection Hscan as <-.
      by destruct H.
  - intros ->. apply Hout. apply (bool_decide_unpack _). by vm_compute.
  - intros ->. apply Hout. apply (bool_decide_unpack _). by vm_compute.
Qed.

(** X4: the last resort never loses what the loop found: every entry of
    the loop with a value that is not empty is in the result with the same
    value, and the URIs are the loop's.  It can only add an ISBN key. *)
Theorem uuid_fallback_keeps_entries (doc : Document) (o : IdentifierSet)
    (key value : jsstring) :
  scannedIdentifiers formatISBN printMember doc = Ok o ->
  fields o !! key = Some value ->
  value <> [] ->
  exists ids,
    identifiersOf doc = Ok ids
    /\ fields ids !! key = Some value
    /\ URIs ids = URIs o
    /\ forall other, other <> js "ISBN-10" -> other <> js "ISBN-13" ->
         fields ids !! other = fields o !! other.
Proof.
  intros Hscan Hkey Hvalue. rewrite parseIdentifiers_scanned, Hscan. cbn [bind].
  eexists. split; [done|].
  split; [|split; [apply uuidFallback_URIs|intros; by apply uuidFallback_other_key]].
  apply truthy_true in Hvalue.
  destruct (decide (key = js "ISBN-10")) as [->|H10].
  { unfold uuidFallback. rewrite Hkey, present_Some, Hvalue.
    by rewrite andb_false_r. }
  destruct (decide (key = js "ISBN-13")) as [->|H13].
  { unfold uuidFallback. rewrite Hkey, present_Some, Hvalue.
    by rewrite andb_false_r. }
  by rewrite uuidFallback_other_key.
Qed.

(** X5: [getISBN] after [setISBN].  Thirteen digits become the ISBN that
    [getISBN] returns (when their formatted form is not empty); ten digits
    become it only while no ISBN-13 is stored, and never replace one. *)
Theorem getISBN_prefers_thirteen (o : IdentifierSet) (text : jsstring) :
  let val := digitsOnly text in
  (List.length val = 13%nat -> formatISBN val <> [] ->
     getISBN (setISBN formatISBN o text) = Some (formatISBN val))
  /\ (List.length val = 10%nat -> present (fields o !! js "ISBN-13") = true ->
        getISBN (setISBN formatISBN o text) = getISBN o
        /\ getISBN o = fields o !! js "ISBN-13")
  /\ (List.length val = 10%nat -> present (fields o !! js "ISBN-13") = false ->
        getISBN (setISBN formatISBN o text) = Some (formatISBN val)).
Proof.
  intros val. subst val. split; [|split].
  - intros Hlen Hfmt. rewrite (setISBN_13 formatISBN o text Hlen).
    unfold getISBN. simpl. rewrite lookup_insert_eq, present_Some.
    by rewrite (proj2 (truthy_true _) Hfmt).
  - intros Hlen H13. rewrite (setISBN_10 formatISBN o text Hlen).
    unfold getISBN. simpl. rewrite lookup_insert_ne by done. by rewrite H13.
  - intros Hlen H13. rewrite (setISBN_10 formatISBN o text Hlen).
    unfold getISBN. simpl. rewrite lookup_insert_ne by done.
    rewrite H13. apply lookup_insert_eq.
Qed.

End IdentifierResults.


Lemma parseIdentifiers_UUID_witness :
  fields (mkIdentifierSet
            {[ js "UUID" := js "978-1-4302-6572-6"; js "ISBN-13" := js "9781430265726" ]}
            None) !! js "UUID"
  = textContent <$>
      last (List.filter (isUniqueIdentifier (Some (js "bookid")))
              (qualifiedElements isbnAsUuid (js "dc") (js "identifier"))).
Proof.
  apply (parseIdentifiers_UUID_is_last_match unhyphenated checkDigits nativeCode isbnAsUuid
           (mkElement (js "package") [(js "unique-identifier", js "bookid")]
              (js "978-1-4302-6572-6") [])).
  - apply (bool_decide_unpack _). by vm_compute.
  - reflexivity.
  - by vm_compute.
Defined.

Lemma parseIdentifiers_keys_witness :
  js "function Object() { [native code] }" = js "UUID"
  \/ js "function Object() { [native code] }" ∈ onixCodeList5.*2
  \/ js "function Object() { [native code] }" ∈ nativeCode <$> objectPrototypeKeys.
Proof.
  apply (parseIdentifiers_keys_are_labels unhyphenated checkDigits nativeCode inheritedCode
           (mkIdentifierSet {[ js "function Object() { [native code] }" := js "t" ]} None)
           (js "function Object() { [native code] }")).
  - by vm_compute.
  - by eexists.
Defined.

(** The identifiers of [inheritedCode], with the sample of an engine's
    printed members. *)
Example identifiers_of_inheritedCode :
  parseIdentifiers unhyphenated checkDigits nativeCode inheritedCode
  = Ok (mkIdentifierSet {[ js "function Object() { [native code] }" := js "t" ]} None).
Proof. by vm_compute. Qed.

Lemma uuid_fallback_keeps_witness :
  exists ids,
    parseIdentifiers unhyphenated checkDigits nativeCode isbnAsUuid = Ok ids
    /\ fields ids !! js "UUID" = Some (js "978-1-4302-6572-6").
Proof.
  destruct (uuid_fallback_keeps_entries unhyphenated checkDigits nativeCode isbnAsUuid
              (mkIdentifierSet {[ js "UUID" := js "978-1-4302-6572-6" ]} None)
              (js "UUID") (js "978-1-4302-6572-6"))
    as (ids & Hids & Hkey & _); [by vm_compute | reflexivity | discriminate |].
  exists ids. split; [exact Hids|exact Hkey].
Defined.
(** ** parseManifest and parseSpine *)

Lemma manifestStep_lookup m el key :
  manifestStep m el !! key
  = if entryFor key el && negb (streq key protoKey)
    then getAttribute el (js "href") else m !! key.
Proof.
  unfold manifestStep, entryFor, isManifestEntry.
  destruct (getAttribute el (js "id")) as [i|]; [|done].
  rewrite present_Some. destruct (truthy i); [|done].
  destruct (getAttribute el (js "href")) as [href|]; [|done].
  rewrite present_Some. destruct (truthy href); [|done].
  cbn [negb andb default from_option id]. rewrite setProperty_lookup.
  unfold streq at 1. case_bool_decide as Hk; case_bool_decide as Hb; try congruence; done.
Qed.

Lemma manifestStep_clean m el : manifestClean m -> manifestClean (manifestStep m el).
Proof.
  intros (Hkey & Hproto & Hval). split; [|split].
  - rewrite manifestStep_lookup. unfold entryFor, isManifestEntry.
    destruct (getAttribute el (js "id")) as [i|]; [|done].
    rewrite present_Some. case_bool_decide as Hi; [|by rewrite andb_false_r].
    injection Hi as ->. done.
  - rewrite manifestStep_lookup, streq_refl. by rewrite andb_false_r.
  - intros key href. rewrite manifestStep_lookup. unfold entryFor, isManifestEntry.
    destruct (_ && _ && _) eqn:Hentry; [|apply Hval].
    apply andb_true_iff in Hentry as [Hentry _].
    apply andb_true_iff in Hentry as [Hentry _].
    apply andb_true_iff in Hentry as [_ Hhref].
    intros H. rewrite H, present_Some in Hhref. by apply truthy_true.
Qed.

Lemma parseManifest_clean doc : manifestClean (parseManifest doc).
Proof.
  unfold parseManifest.
  generalize (querySelectorAll doc (SelUnder (js "manifest") (js "item") AnyAttributes)).
  assert (manifestClean ∅) as H by done. revert H.
  generalize (∅ : gmap jsstring jsstring).
  intros m H els. revert m H.
  induction els as [|el els IH]; intros m H; [done|].
  simpl. apply IH. by apply manifestStep_clean.
Qed.

Lemma manifest_fold_lookup els m key :
  fold_left manifestStep els m !! key
  = if streq key protoKey then m !! key
    else match last (List.filter (entryFor key) els) with
         | Some el => getAttribute el (js "href")
         | None => m !! key
         end.
Proof.
  revert m. induction els as [|el els IH]; intros m.
  - by destruct (streq key protoKey).
  - cbn [fold_left]. rewrite IH, last_filter_cons, manifestStep_lookup.
    destruct (streq key protoKey); [by rewrite andb_false_r|].
    rewrite andb_true_r. destruct (last (List.filter _ els)); [done|].
    by destruct (entryFor key el).
Qed.

Lemma parseManifest_lookup doc key :
  parseManifest doc !! key
  = if streq key protoKey then None
    else last (List.filter (entryFor key) (manifestItems doc))
           ≫= (fun el => getAttribute el (js "href")).
Proof.
  unfold parseManifest. fold (manifestItems doc). rewrite manifest_fold_lookup.
  destruct (streq key protoKey); [done|]. by destruct (last _).
Qed.

(** X6: the manifest map sends an id to the href of the last [item] that
    carries that id and has an id and an href that are not empty; ids
    without such an item are missing.  No key and no href of the map is
    empty, and the id [__proto__] is never a key, whatever items carry
    it. *)
Theorem parseManifest_last_item_wins (doc : Document) (key : jsstring) :
  (key <> protoKey ->
   parseManifest doc !! key
   = last (List.filter (entryFor key) (manifestItems doc))
       ≫= (fun el => getAttribute el (js "href")))
  /\ parseManifest doc !! protoKey = None
  /\ parseManifest doc !! [] = None
  /\ (forall href, parseManifest doc !! key = Some href -> key <> [] /\ href <> []).
Proof.
  destruct (parseManifest_clean doc) as (Hkey & Hproto & Hval).
  split; [|split; [done|split; [done|]]].
  - intros Hne. rewrite parseManifest_lookup.
    by rewrite (proj2 (streq_false _ _) Hne).
  - intros href H. split; [|by apply (Hval key)]. intros ->. congruence.
Qed.

Example parseManifest_examples :
  parseManifest nonLinearSpine = {[ js "a" := js "x.html"; js "b" := js "y.html" ]}
  /\ parseManifest
       (package [] [] [elem "item" [("id", "__proto__"); ("href", "x.html")] []] [])
     = ∅.
Proof. split; by vm_compute. Qed.

Lemma spineStep_resolves m acc el :
  manifestClean m ->
  spineStep m acc el = acc ++ option_list (resolveItemref m el).
Proof.
  intros (Hkey & _ & Hval). unfold spineStep, resolveItemref.
  destruct (getAttribute el (js "idref")) as [idref|]; [|by rewrite app_nil_r].
  rewrite present_Some. cbn [default from_option id].
  destruct (truthy idref) eqn:Hid; cbn [negb].
  - case_bool_decide; [by rewrite app_nil_r|].
    unfold getProperty. destruct (m !! idref) as [href|] eqn:Hm.
    + cbn [truthyValue]. by rewrite (proj2 (truthy_true href) (Hval idref href Hm)).
    + destruct (inherited idref); [done|]. by rewrite app_nil_r.
  - apply truthy_false in Hid. subst idref.
    case_bool_decide; [by rewrite app_nil_r|].
    unfold getProperty. rewrite Hkey. by rewrite app_nil_r.
Qed.

Lemma spine_fold m els acc :
  manifestClean m ->
  fold_left (spineStep m) els acc = acc ++ omap (resolveItemref m) els.
Proof.
  intros Hm. revert acc. induction els as [|el els IH]; intros acc; simpl.
  - by rewrite app_nil_r.
  - rewrite IH, (spineStep_resolves m acc el Hm).
    destruct (resolveItemref m el); simpl; [by rewrite <- app_assoc|by rewrite app_nil_r].
Qed.

Lemma parseSpine_items doc sp :
  parseSpine doc = Some sp ->
  items sp = omap (resolveItemref (parseManifest doc)) (spineItemrefs doc).
Proof.
  unfold parseSpine.
  destruct (querySelector doc (SelPackageChild (js "spine"))); [|done].
  intros [= <-]. cbn [items]. fold (spineItemrefs doc).
  by rewrite (spine_fold _ _ [] (parseManifest_clean doc)).
Qed.

(** C5 fails on the code: an itemref that is linear and whose idref names
    no item of the manifest is not skipped when the idref is the name of a
    member of [Object.prototype], such as [constructor].  [items[idref]]
    then is that member, which is truthy, and it is pushed among the hrefs
    of the spine. *)
Theorem parseSpine_keeps_inherited_members (doc : Document) (el : Element)
    (key : jsstring) :
  is_Some (querySelector doc (SelPackageChild (js "spine"))) ->
  el ∈ spineItemrefs doc ->
  getAttribute el (js "idref") = Some key ->
  getAttribute el (js "linear") <> Some (js "no") ->
  inherited key = true ->
  List.filter (entryFor key) (manifestItems doc) = [] ->
  exists sp, parseSpine doc = Some sp /\ Member key ∈ items sp.
Proof.
  intros [spineEl Hspine] Hel Hidref Hlinear Hkey Hentries.
  assert (exists sp, parseSpine doc = Some sp) as [sp Hsp]
    by (unfold parseSpine; rewrite Hspine; by eexists).
  exists sp. split; [done|]. rewrite (parseSpine_items doc sp Hsp).
  apply list_elem_of_omap. exists el. split; [done|].
  unfold resolveItemref. rewrite Hidref.
  rewrite bool_decide_eq_false_2 by done.
  apply getProperty_member; [|done].
  rewrite parseManifest_lookup, Hentries. by destruct (streq key protoKey).
Qed.

Lemma parseSpine_keeps_inherited_members_witness :
  exists sp,
    parseSpine danglingItemref = Some sp /\ Member (js "constructor") ∈ items sp.
Proof.
  apply (parseSpine_keeps_inherited_members danglingItemref
           (mkElement (js "itemref") [(js "idref", js "constructor")] []
              [js "spine"; js "package"]) (js "constructor")).
  - by eexists.
  - apply list_elem_of_In. vm_compute. right. by left.
  - reflexivity.
  - discriminate.
  - reflexivity.
  - reflexivity.
Defined.

(** The spine of [danglingItemref], and that of the example of the
    specification. *)
Example spine_of_danglingItemref :
  items <$> parseSpine danglingItemref
  = Some [Str (js "x.html"); Member (js "constructor")]
  /\ items <$> parseSpine nonLinearSpine = Some [Str (js "y.html")].
Proof. split; by vm_compute. Qed.

(** X7: the spine that [parseSpine] returns.  Its items are what the
    itemrefs contribute, in document order: nothing for an itemref without
    idref or with [linear="no"], the href of the manifest for an idref that
    is a key of the manifest map, and, for an idref that is no key of the
    map, nothing, unless it names a member of [Object.prototype], which
    then is the item.  Every href among the items is not empty, and the
    spine never has more items than itemrefs. *)
Theorem parseSpine_items_resolve_idrefs (doc : Document) (sp : Spine) :
  parseSpine doc = Some sp ->
  items sp = omap (resolveItemref (parseManifest doc)) (spineItemrefs doc)
  /\ Forall (fun item =>
               exists el idref,
                 el ∈ spineItemrefs doc
                 /\ getAttribute el (js "idref") = Some idref
                 /\ getAttribute el (js "linear") <> Some (js "no")
                 /\ match item with
                    | Str href => parseManifest doc !! idref = Some href /\ href <> []
                    | Member key =>
                        key = idref /\ parseManifest doc !! idref = None
                        /\ inherited idref = true
                    end)
            (items sp)
  /\ (forall el idref,
        getAttribute el (js "idref") = Some idref ->
        parseManifest doc !! idref = None -> inherited idref = false ->
        resolveItemref (parseManifest doc) el = None)
  /\ (List.length (items sp) <= List.length (spineItemrefs doc))%nat.
Proof.
  intros Hsp. rewrite (parseSpine_items doc sp Hsp).
  split; [done|]. split; [|split; [|apply omap_length_le]].
  - apply Forall_forall. intros item Hin.
    apply list_elem_of_omap in Hin as (el & Hel & Hres).
    unfold resolveItemref in Hres.
    destruct (getAttribute el (js "idref")) as [idref|] eqn:Hid; [|done].
    case_bool_decide as Hlin; [done|].
    exists el, idref. split; [done|]. split; [done|]. split; [done|].
    unfold getProperty in Hres.
    destruct (parseManifest doc !! idref) as [href|] eqn:Hm.
    + injection Hres as <-. split; [done|].
      by apply (proj2 (proj2 (parseManifest_clean doc)) idref).
    + destruct (inherited idref) eqn:Hi; [|done]. by injection Hres as <-.
  - intros el idref Hid Hm Hi. unfold resolveItemref. rewrite Hid.
    case_bool_decide; [done|]. by apply getProperty_undefined.
Qed.

Lemma parseSpine_items_witness :
  [Str (js "y.html")]
  = omap (resolveItemref (parseManifest nonLinearSpine)) (spineItemrefs nonLinearSpine).
Proof.
  apply (proj1 (parseSpine_items_resolve_idrefs nonLinearSpine
                  (mkSpine None (js "ltr") [Str (js "y.html")]) eq_refl)).
Defined.

(** X27: the rest of what [parseSpine] returns.  The result is [null]
    exactly when the document has no [package > spine] element.
    Otherwise [toc] is the attribute of that element as it is written
    (missing when the attribute is), and the page progression direction is
    the attribute when it is set and not empty and [ltr] when it is missing
    or empty. *)
Theorem parseSpine_toc_and_direction (doc : Document) :
  (querySelector doc (SelPackageChild (js "spine")) = None <-> parseSpine doc = None)
  /\ (forall spineEl, querySelector doc (SelPackageChild (js "spine")) = Some spineEl ->
      exists sp, parseSpine doc = Some sp
        /\ toc sp = getAttribute spineEl (js "toc")
        /\ (getAttribute spineEl (js "page-progression-direction") = None ->
            pageProgressionDirection sp = js "ltr")
        /\ (getAttribute spineEl (js "page-progression-direction") = Some [] ->
            pageProgressionDirection sp = js "ltr")
        /\ (forall dir, getAttribute spineEl (js "page-progression-direction") = Some dir ->
            dir <> [] -> pageProgressionDirection sp = dir)).
Proof.
  split.
  - unfold parseSpine.
    destruct (querySelector doc (SelPackageChild (js "spine"))); by split.
  - intros spineEl Hsp. unfold parseSpine. rewrite Hsp. eexists. split; [done|].
    cbn [toc pageProgressionDirection].
    split; [done|split; [|split]].
    + by intros ->.
    + by intros ->.
    + intros dir -> Hdir. rewrite present_Some.
      by rewrite (proj2 (truthy_true dir) Hdir).
Qed.

(** ** Cover images *)

Lemma converted_types_supported m :
  m ∈ supportedCoverFileTypeConv.*2 -> m ∈ supportedCoverMediaTypes.
Proof.
  assert (Forall (fun t => t ∈ supportedCoverMediaTypes) supportedCoverFileTypeConv.*2)
    as Hall by (repeat constructor; apply (bool_decide_unpack _); by vm_compute).
  intros H. by apply (proj1 (Forall_forall _ _) Hall).
Qed.

Lemma valid_cover_supported el m :
  isValidCoverImageElement el = Some m -> m ∈ supportedCoverMediaTypes.
Proof.
  destruct el as [el|]; [|done]. unfold isValidCoverImageElement.
  destruct (present (getAttribute el (js "media-type"))) eqn:Hmt; cbn [negb].
  - destruct (getAttribute el (js "media-type")) as [mt|]; [|done].
    cbn [default from_option id].
    destruct (existsb (streq mt) supportedCoverMediaTypes) eqn:Hex; [|done].
    intros [= <-]. by apply existsb_streq.
  - destruct (negb (present (getAttribute el (js "href")))); [done|].
    destruct (_ <? 0)%Z; [done|]. cbv zeta.
    destruct (existsb _ supportedCoverFileTypes); [|done].
    intros H. apply assoc_values in H. by apply converted_types_supported.
Qed.

(** X8: [isValidCoverImageElement] answers with one of the four supported
    media types or not at all.  A missing element is not valid.  For an
    element with a [media-type] that is not empty the attribute decides
    alone, whatever the [href]: a supported type is returned as it is
    written, and any other type is refused even when the file extension is
    an image's. *)
Theorem isValidCoverImageElement_media_type (el : Element) :
  isValidCoverImageElement None = None
  /\ (forall m, isValidCoverImageElement (Some el) = Some m ->
        m ∈ supportedCoverMediaTypes)
  /\ (forall mt, getAttribute el (js "media-type") = Some mt -> mt <> [] ->
        isValidCoverImageElement (Some el)
        = if bool_decide (mt ∈ supportedCoverMediaTypes) then Some mt else None).
Proof.
  split; [done|]. split; [intros m; apply valid_cover_supported|].
  intros mt Hmt Hne. unfold isValidCoverImageElement.
  rewrite Hmt, present_Some, (proj2 (truthy_true mt) Hne).
  cbn [negb default from_option id].
  destruct (existsb (streq mt) supportedCoverMediaTypes) eqn:Hex.
  - apply existsb_streq in Hex. by rewrite bool_decide_eq_true_2.
  - rewrite bool_decide_eq_false_2; [done|].
    intros Hin. apply existsb_streq in Hin. congruence.
Qed.

Lemma dropThroughDots_plain ext :
  forallb plainUnit ext = true -> dropThroughDots ext = (ext, false).
Proof.
  induction ext as [|c r IH]; [done|]. simpl. intros H.
  apply andb_true_iff in H as [Hc Hr]. rewrite (IH Hr).
  unfold plainUnit in Hc. apply andb_true_iff in Hc as [Hdot Hlt].
  apply negb_true_iff in Hdot, Hlt. by rewrite Hlt, Hdot.
Qed.

Lemma dropThroughDots_extension stem ext :
  forallb (fun c => negb (isLineTerminator c)) stem = true ->
  forallb plainUnit ext = true ->
  dropThroughDots (stem ++ dot :: ext) = (ext, true).
Proof.
  intros Hstem Hext. induction stem as [|c r IH]; cbn [app dropThroughDots].
  - by rewrite (dropThroughDots_plain ext Hext).
  - cbn [forallb] in Hstem. apply andb_true_iff in Hstem as [Hc Hr].
    rewrite (IH Hr). apply negb_true_iff in Hc. by rewrite Hc.
Qed.

(** X9: an element without a media type is judged by the extension of its
    [href], whatever the case of its letters: when the href has no line
    terminator, the text after its last dot is looked up in lower case in
    the extension table and the media type found there is returned. *)
Theorem isValidCoverImageElement_extension (el : Element) (stem ext m : jsstring) :
  present (getAttribute el (js "media-type")) = false ->
  getAttribute el (js "href") = Some (stem ++ dot :: ext) ->
  forallb (fun c => negb (isLineTerminator c)) stem = true ->
  forallb plainUnit ext = true ->
  assoc (toLowerCase ext) supportedCoverFileTypeConv = Some m ->
  isValidCoverImageElement (Some el) = Some m.
Proof.
  intros Hmt Hhref Hstem Hext Hconv. unfold isValidCoverImageElement.
  rewrite Hmt, Hhref. cbn [negb present default from_option id].
  assert (truthy (stem ++ dot :: ext) = true) as -> by (by destruct stem).
  cbn [negb].
  destruct (Z.ltb_spec (indexOf dot (stem ++ dot :: ext)) 0) as [Hneg|_].
  { assert (dot ∈ stem ++ dot :: ext) as Hin
      by (apply elem_of_app; right; apply list_elem_of_here).
    apply indexOf_member in Hin. lia. }
  rewrite (dropThroughDots_extension stem ext Hstem Hext). cbn [fst].
  assert (existsb (streq (toLowerCase ext)) supportedCoverFileTypes = true) as ->.
  { apply existsb_streq. unfold supportedCoverFileTypes. apply assoc_names. by eexists. }
  done.
Qed.

(** An href without a dot is refused. *)
Lemma href_without_dot_is_refused el href :
  present (getAttribute el (js "media-type")) = false ->
  getAttribute el (js "href") = Some href -> dot ∉ href ->
  isValidCoverImageElement (Some el) = None.
Proof.
  intros Hmt Hhref Hdot. unfold isValidCoverImageElement.
  rewrite Hmt, Hhref. cbn [negb present default from_option id].
  destruct (truthy href); [|done]. cbn [negb].
  apply indexOf_absent in Hdot.
  by destruct (Z.ltb_spec (indexOf dot href) 0) as [_|?]; [|lia].
Qed.

Lemma isValidCoverImageElement_extension_witness :
  isValidCoverImageElement
    (Some (mkElement (js "item") [(js "id", js "cov"); (js "href", js "images/Cover.JPG")]
             [] [js "manifest"; js "package"]))
  = Some (js "image/jpeg").
Proof.
  apply (isValidCoverImageElement_extension _ (js "images/Cover") (js "JPG") (js "image/jpeg"));
    reflexivity.
Defined.

Lemma querySelector_member doc sel el :
  querySelector doc sel = Some el -> el ∈ elements doc /\ selects sel el = true.
Proof.
  unfold querySelector, querySelectorAll. intros H.
  destruct (List.filter (selects sel) (elements doc)) as [|e rest] eqn:Hf; [done|].
  injection H as ->.
  assert (In el (List.filter (selects sel) (elements doc))) as Hin
    by (rewrite Hf; by left).
  apply filter_In in Hin as [Hin Hsel]. split; [by apply list_elem_of_In|done].
Qed.

Lemma coverFromIds_valid doc el m :
  isValidCoverImageElement el = Some m -> coverFromIds doc el = el.
Proof. intros H. unfold coverFromIds. by rewrite H. Qed.

(** X10: the manifest item with the [cover-image] property comes first: when
    it is a valid cover, [parseCoverImage] returns its [href] and its media
    type, whatever [meta] elements and conventional ids the document has,
    and does not raise. *)
Theorem parseCoverImage_property_item_first (doc : Document) (item : Element)
    (m : jsstring) :
  manifestItem doc (AttrIncludes (js "properties") (js "cover-image")) = Some item ->
  isValidCoverImageElement (Some item) = Some m ->
  parseCoverImage doc = Ok (mkCoverImage (getAttribute item (js "href")) (Some m)).
Proof.
  intros Hitem Hvalid. unfold parseCoverImage, coverFromMetadata.
  rewrite Hitem, Hvalid. cbn [isSome bind].
  by rewrite (coverFromIds_valid doc (Some item) m Hvalid), Hvalid.
Qed.

(** A package with a [cover-image] item and a [meta] that names another
    item. *)
Lemma parseCoverImage_property_item_witness :
  parseCoverImage
    (package []
       [elem "meta" [("name", "cover"); ("content", "old")] []]
       [elem "item" [("id", "old"); ("href", "old.gif")] [];
        elem "item" [("id", "new"); ("href", "new.png");
                     ("properties", "nav cover-image")] []]
       [])
  = Ok (mkCoverImage (Some (js "new.png")) (Some (js "image/png"))).
Proof.
  apply (parseCoverImage_property_item_first _
           (mkElement (js "item")
              [(js "id", js "new"); (js "href", js "new.png");
               (js "properties", js "nav cover-image")]
              [] [js "manifest"; js "package"]) (js "image/png"));
    reflexivity.
Defined.

(** The [meta[name=cover]] route up to the query for the item. *)
Lemma coverFromMetadata_content doc meta itemID :
  isValidCoverImageElement
    (manifestItem doc (AttrIncludes (js "properties") (js "cover-image"))) = None ->
  isValidCoverImageElement
    (metadataMeta doc (AttrEquals (js "name") (js "cover-image"))) = None ->
  metadataMeta doc (AttrEquals (js "name") (js "cover")) = Some meta ->
  isValidCoverImageElement (Some meta) = None ->
  getAttribute meta (js "content") = Some itemID -> itemID <> [] ->
  coverFromMetadata doc
  = bind (attributeValue false itemID)
      (fun value => Ok (manifestItem doc (AttrEquals (js "id") value))).
Proof.
  intros H1 H2 Hmeta Hinvalid Hcontent Hne. unfold coverFromMetadata.
  rewrite H1, H2, Hmeta, Hinvalid, Hcontent, present_Some.
  by rewrite (proj2 (truthy_true itemID) Hne).
Qed.

(** X11: the [meta[name=cover]] route.  When neither the [cover-image]
    item nor [meta[name=cover-image]] is a valid cover, and the
    [meta[name=cover]] element is not one itself, its [content] names the
    manifest item to use: if the content is an identifier (letters,
    digits, hyphens and underscores after a letter or an underscore) and
    the item with that id is a valid cover, its [href] and media type are
    returned. *)
Theorem parseCoverImage_follows_cover_meta (doc : Document) (meta item : Element)
    (itemID m : jsstring) :
  isValidCoverImageElement
    (manifestItem doc (AttrIncludes (js "properties") (js "cover-image"))) = None ->
  isValidCoverImageElement
    (metadataMeta doc (AttrEquals (js "name") (js "cover-image"))) = None ->
  metadataMeta doc (AttrEquals (js "name") (js "cover")) = Some meta ->
  isValidCoverImageElement (Some meta) = None ->
  getAttribute meta (js "content") = Some itemID ->
  isCssIdentifier itemID = true ->
  manifestItem doc (AttrEquals (js "id") itemID) = Some item ->
  isValidCoverImageElement (Some item) = Some m ->
  parseCoverImage doc = Ok (mkCoverImage (getAttribute item (js "href")) (Some m)).
Proof.
  intros H1 H2 Hmeta Hinvalid Hcontent Hident Hitem Hvalid.
  assert (itemID <> []) as Hne by (by destruct itemID).
  unfold parseCoverImage.
  rewrite (coverFromMetadata_content doc meta itemID H1 H2 Hmeta Hinvalid Hcontent Hne).
  rewrite (attributeValue_identifier itemID Hident). cbn [bind]. rewrite Hitem.
  by rewrite (coverFromIds_valid doc (Some item) m Hvalid), Hvalid.
Qed.

Lemma parseCoverImage_follows_cover_meta_witness :
  parseCoverImage
    (package []
       [elem "meta" [("name", "cover"); ("content", "cov")] []]
       [elem "item" [("id", "cov"); ("href", "images/Cover.JPG")] []]
       [])
  = Ok (mkCoverImage (Some (js "images/Cover.JPG")) (Some (js "image/jpeg"))).
Proof.
  apply (parseCoverImage_follows_cover_meta _
           (mkElement (js "meta") [(js "name", js "cover"); (js "content", js "cov")]
              [] [js "metadata"; js "package"])
           (mkElement (js "item") [(js "id", js "cov"); (js "href", js "images/Cover.JPG")]
              [] [js "manifest"; js "package"])
           (js "cov") (js "image/jpeg")); reflexivity.
Defined.

Lemma coverFromMetadata_member doc e :
  coverFromMetadata doc = Ok (Some e) -> e ∈ elements doc.
Proof.
  unfold coverFromMetadata, manifestItem, metadataMeta.
  destruct (isSome (isValidCoverImageElement (querySelector doc _))).
  { intros [= H]. by apply querySelector_member in H as [? _]. }
  destruct (isSome (isValidCoverImageElement (querySelector doc _))).
  { intros [= H]. by apply querySelector_member in H as [? _]. }
  destruct (querySelector doc (SelUnder _ _ (AttrEquals _ (js "cover")))) as [meta|] eqn:Hmeta.
  - destruct (isSome (isValidCoverImageElement (Some meta))).
    { intros [= <-]. by apply querySelector_member in Hmeta as [? _]. }
    destruct (present (getAttribute meta (js "content"))).
    + intros H. apply bind_Ok in H as (value & _ & H). injection H as H.
      by apply querySelector_member in H as [? _].
    + intros [= <-]. by apply querySelector_member in Hmeta as [? _].
  - by destruct (isSome _).
Qed.

(** X12: what [parseCoverImage] returns when it returns.  Either the empty
    descriptor, with no path and no media type, or the [href] of an element
    of the document that is a valid cover, with the media type that
    [isValidCoverImageElement] gives for it, which is a supported one.  A
    path never comes without a media type. *)
Theorem parseCoverImage_descriptor (doc : Document) (cover : CoverImage) :
  parseCoverImage doc = Ok cover ->
  (cover = mkCoverImage None None
   \/ exists el m,
        el ∈ elements doc
        /\ isValidCoverImageElement (Some el) = Some m
        /\ m ∈ supportedCoverMediaTypes
        /\ cover = mkCoverImage (getAttribute el (js "href")) (Some m))
  /\ (mediaType cover = None -> path cover = None).
Proof.
  unfold parseCoverImage.
  destruct (coverFromMetadata doc) as [found| |] eqn:Hfound; [|done|done]. cbn [bind].
  destruct (isValidCoverImageElement (coverFromIds doc found)) as [m|] eqn:Hvalid.
  - intros [= <-]. split; [|done]. right.
    destruct (coverFromIds doc found) as [el|] eqn:Hel; [|done].
    exists el, m. split; [|split; [done|split; [by apply valid_cover_supported in Hvalid|done]]].
    unfold coverFromIds, manifestItem in Hel.
    destruct (isSome (isValidCoverImageElement found)).
    { subst found. by apply coverFromMetadata_member. }
    destruct (isSome (isValidCoverImageElement (querySelector doc _))).
    + by apply querySelector_member in Hel as [? _].
    + by apply querySelector_member in Hel as [? _].
  - intros [= <-]. split; [by left|done].
Qed.

Lemma parseCoverImage_descriptor_witness :
  (mkCoverImage (Some (js "c.png")) (Some (js "image/png")) = mkCoverImage None None
   \/ exists el m,
        el ∈ elements undated
        /\ isValidCoverImageElement (Some el) = Some m
        /\ m ∈ supportedCoverMediaTypes
        /\ mkCoverImage (Some (js "c.png")) (Some (js "image/png"))
           = mkCoverImage (getAttribute el (js "href")) (Some m))
  /\ (mediaType (mkCoverImage (Some (js "c.png")) (Some (js "image/png"))) = None ->
      path (mkCoverImage (Some (js "c.png")) (Some (js "image/png"))) = None).
Proof.
  apply (parseCoverImage_descriptor undated). reflexivity.
Defined.

(** X25: a [content] that is a file name.  On the [meta[name=cover]] route,
    a [content] with a dot after letters, digits, hyphens and underscores,
    such as [cover.jpg], makes the text of the query no selector, and
    [parseCoverImage] raises a SyntaxError, whatever the manifest holds. *)
Theorem parseCoverImage_raises_on_dotted_content (doc : Document) (meta : Element)
    (itemID : jsstring) :
  isValidCoverImageElement
    (manifestItem doc (AttrIncludes (js "properties") (js "cover-image"))) = None ->
  isValidCoverImageElement
    (metadataMeta doc (AttrEquals (js "name") (js "cover-image"))) = None ->
  metadataMeta doc (AttrEquals (js "name") (js "cover")) = Some meta ->
  isValidCoverImageElement (Some meta) = None ->
  getAttribute meta (js "content") = Some itemID ->
  dotAfterName itemID = true ->
  parseCoverImage doc = Throw SyntaxError.
Proof.
  intros H1 H2 Hmeta Hinvalid Hcontent Hdot.
  assert (itemID <> []) as Hne by (by destruct itemID).
  unfold parseCoverImage.
  rewrite (coverFromMetadata_content doc meta itemID H1 H2 Hmeta Hinvalid Hcontent Hne).
  by rewrite (attributeValue_dotted false itemID Hdot).
Qed.

Lemma parseCoverImage_raises_on_dotted_content_witness :
  parseCoverImage
    (package []
       [elem "meta" [("name", "cover"); ("content", "cover.jpg")] []]
       [elem "item" [("id", "cover.jpg"); ("href", "images/cover.jpg");
                     ("media-type", "image/jpeg")] []]
       [])
  = Throw SyntaxError.
Proof.
  apply (parseCoverImage_raises_on_dotted_content _
           (mkElement (js "meta") [(js "name", js "cover"); (js "content", js "cover.jpg")]
              [] [js "metadata"; js "package"])
           (js "cover.jpg")); reflexivity.
Defined.
(** ** The flat view of an element *)

Lemma flatView_Ok doc el view :
  refineMeta doc el true true = Ok view -> flatView doc el = flatProps view.
Proof. intros H. unfold flatView. by rewrite H. Qed.

(** ** getMetas: what it selects *)

Lemma afterFirstColon_qualified prefix local :
  colon ∉ prefix -> afterFirstColon (prefix ++ colon :: local) = Some local.
Proof.
  induction prefix as [|c r IH]; intros H; simpl.
  - done.
  - apply not_elem_of_cons in H as [Hc Hr].
    destruct (N.eqb_spec c colon); [done|]. by apply IH.
Qed.

(** X19: for a qualified name [prefix:local] whose local part is an
    identifier (letters, digits, hyphens and underscores after a letter or
    an underscore), [getMetas] returns exactly the elements of the document
    that carry that very tag name and lie under a [metadata] child of a
    [package], in document order; an element with the same local name and
    another prefix, or none, is not returned. *)
Theorem getMetas_selects_by_tag_name (doc : Document) (prefix local : jsstring) :
  colon ∉ prefix -> isCssIdentifier local = true ->
  exists els,
    getMetas doc (prefix ++ colon :: local) = Ok (Some els)
    /\ els `sublist_of` elements doc
    /\ forall el, el ∈ els <->
         el ∈ elements doc
         /\ tagName el = prefix ++ colon :: local
         /\ underPackage (js "metadata") (ancestors el) = true.
Proof.
  intros Hp Hl. exists (qualifiedElements doc prefix local).
  split; [by apply getMetas_qualified|]. unfold qualifiedElements, querySelectorAll.
  split.
  - etrans; apply filter_sublist.
  - intros el. rewrite list_elem_of_In, !filter_In, <- list_elem_of_In.
    cbn [selects testAttr]. rewrite andb_true_r, andb_true_iff, !streq_true.
    split.
    + by intros [(Hin & _ & Hunder) Htag].
    + intros (Hin & Htag & Hunder). split; [|done]. split; [done|]. split; [|done].
      unfold localName. by rewrite Htag, (afterFirstColon_qualified prefix local Hp).
Qed.

Lemma getMetas_selects_witness :
  exists els,
    getMetas sampleTitles (js "dc:title") = Ok (Some els)
    /\ els `sublist_of` elements sampleTitles
    /\ forall el, el ∈ els <->
         el ∈ elements sampleTitles
         /\ tagName el = js "dc:title"
         /\ underPackage (js "metadata") (ancestors el) = true.
Proof.
  apply (getMetas_selects_by_tag_name sampleTitles (js "dc") (js "title"));
    [apply dc_has_no_colon|reflexivity].
Defined.

(** ** getAuthors *)

Lemma lastFirst_derived display :
  let parts := split display in
  (if (List.length parts <=? 1)%nat then display
   else default [] (parts !! (List.length parts - 1)%nat) ++ js ", "
        ++ join (js " ") (take (List.length parts - 1) parts))
  = lastFirst display.
Proof.
  intros parts. unfold lastFirst. fold parts. clearbody parts.
  destruct parts as [|p [|q rest]]; [done|done|].
  change (List.length (p :: q :: rest) <=? 1)%nat with false. cbv iota.
  by rewrite last_lookup, removelast_firstn_len, Nat.sub_1_r.
Qed.

Lemma authorStep_filing ret author :
  authorStep true ret author = ret ++ [filingName author].
Proof.
  unfold authorStep, filingName.
  destruct (props author !! js "for-filing") as [filing|].
  - rewrite present_Some. destruct (truthy filing); [done|].
    rewrite <- lastFirst_derived. cbv zeta.
    by destruct (List.length (split (name author)) <=? 1)%nat.
  - rewrite <- lastFirst_derived. cbv zeta. cbn [present].
    by destruct (List.length (split (name author)) <=? 1)%nat.
Qed.

Lemma authors_fold forFiling aut ret :
  fold_left (authorStep forFiling) aut ret
  = ret ++ map (if forFiling then filingName else name) aut.
Proof.
  revert ret. induction aut as [|a aut IH]; intros ret; simpl.
  - by rewrite app_nil_r.
  - rewrite IH. destruct forFiling.
    + by rewrite authorStep_filing, <- app_assoc.
    + cbn [authorStep]. by rewrite <- app_assoc.
Qed.

(** C8, as the code has it: [getAuthors(true)] returns, for each author of
    the [aut] group in its order, the [for-filing] value when it is set and
    not empty, and otherwise (also when it is set and empty) the name made
    of the last token of the display name split on white space, a comma and
    a space, and the other tokens joined by spaces; a name of one token is
    returned unchanged, and without an [aut] group the list is empty.  The
    sole creator "Jane Doe" gives ["Jane Doe"] and ["Doe, Jane"]. *)
Theorem getAuthors_filing_names (creators : gmap jsstring (list Creator)) :
  getAuthors creators true = map filingName (default [] (creators !! js "aut"))
  /\ getAuthors creators false = map name (default [] (creators !! js "aut"))
  /\ (forall display, (List.length (split display) <= 1)%nat -> lastFirst display = display)
  /\ (forall display tokens, split display = tokens -> (2 <= List.length tokens)%nat ->
        lastFirst display
        = default [] (last tokens) ++ js ", " ++ join (js " ") (removelast tokens))
  /\ (exists janes,
        parseCreators janeDoe = Ok janes
        /\ getAuthors janes false = [js "Jane Doe"]
        /\ getAuthors janes true = [js "Doe, Jane"]).
Proof.
  split; [|split; [|split; [|split]]].
  - unfold getAuthors. destruct (creators !! js "aut"); [|done]. apply authors_fold.
  - unfold getAuthors. destruct (creators !! js "aut"); [|done]. apply authors_fold.
  - intros display H. unfold lastFirst.
    destruct (split display) as [|p [|q rest]]; [done|done|simpl in H; lia].
  - intros display tokens <- H. unfold lastFirst.
    destruct (split display) as [|p [|q rest]]; [simpl in H; lia|simpl in H; lia|done].
  - eexists. split; [by vm_compute|]. split; reflexivity.
Qed.

(** C8 as stated fails: a [for-filing] attribute that is present and empty
    is not returned; the name derived from the display name is. *)
Lemma empty_for_filing_is_not_returned :
  exists creators author,
    parseCreators janeDoeEmptyFiling = Ok creators
    /\ creators !! js "aut" = Some [author]
    /\ name author = js "Jane Doe"
    /\ props author !! js "for-filing" = Some []
    /\ getAuthors creators true = [js "Doe, Jane"].
Proof.
  eexists _, _. split; [by vm_compute|].
  split; [by vm_compute|]. split; [reflexivity|]. split; reflexivity.
Qed.

(** ** getTitles *)

Lemma title_is_identifier : isCssIdentifier (js "title") = true.
Proof. reflexivity. Qed.

Section Titles.

Variable doc : Document.

(** One turn that returns: a title without a type fills [main] when it is
    free, and a title with a type is stored under its type. *)
Lemma titleStep_Ok t el t' :
  titleStep doc t el = Ok t' ->
  if lacksTitleType doc el
  then t' = if present (t !! main) then t else <[main := textContent el]> t
  else exists kind, titleType doc el = Some kind /\ kind <> []
         /\ t' = setProperty t kind (textContent el).
Proof.
  unfold titleStep. intros H. apply bind_Ok in H as (view & Hview & H).
  unfold lacksTitleType, titleType. rewrite (flatView_Ok doc el view Hview).
  fold main in H.
  destruct (negb (present (flatProps view !! js "title-type"))) eqn:Htype.
  - destruct (present (t !! main)); by injection H as <-.
  - destruct (flatProps view !! js "title-type") as [kind|]; [|done].
    exists kind. split; [done|]. split; [|by injection H as <-].
    rewrite present_Some in Htype. apply negb_false_iff in Htype. by apply truthy_true.
Qed.

Lemma main_not_proto : main <> protoKey.
Proof. done. Qed.

Lemma titleStep_lacking t el t' :
  titleStep doc t el = Ok t' ->
  lacksTitleType doc el = true ->
  t' !! main = if present (t !! main) then t !! main else Some (textContent el).
Proof.
  intros H Hl. apply titleStep_Ok in H. rewrite Hl in H. subst t'.
  destruct (present (t !! main)); [done|]. apply lookup_insert_eq.
Qed.

Lemma isMainTitle_typed el : isMainTitle doc el = true -> lacksTitleType doc el = false.
Proof.
  unfold isMainTitle, lacksTitleType. intros H. apply bool_decide_eq_true in H.
  by rewrite H.
Qed.

Lemma titleStep_explicit t el t' :
  titleStep doc t el = Ok t' ->
  isMainTitle doc el = true -> t' !! main = Some (textContent el).
Proof.
  intros H Hm. apply titleStep_Ok in H. rewrite (isMainTitle_typed el Hm) in H.
  destruct H as (kind & Hk & _ & ->).
  apply bool_decide_eq_true in Hm. rewrite Hm in Hk. injection Hk as <-.
  rewrite setProperty_lookup. by rewrite streq_refl.
Qed.

Lemma titleStep_other t el t' :
  titleStep doc t el = Ok t' ->
  lacksTitleType doc el = false -> isMainTitle doc el = false ->
  t' !! main = t !! main.
Proof.
  intros H Hl Hm. apply titleStep_Ok in H. rewrite Hl in H.
  destruct H as (kind & Hk & _ & ->).
  apply bool_decide_eq_false in Hm. rewrite setProperty_lookup.
  rewrite (proj2 (streq_false kind main)); [done|]. unfold main. congruence.
Qed.

Lemma titles_keep_main els t r m :
  loop (titleStep doc) els t = Ok r ->
  t !! main = Some m -> m <> [] ->
  Forall (fun el => isMainTitle doc el = false) els ->
  r !! main = Some m.
Proof.
  intros Hloop Ht Hm Hels. revert t Hloop Ht.
  induction Hels as [|el els Hel _ IH]; intros t Hloop Ht; [by injection Hloop as <-|].
  apply loop_cons_Ok in Hloop as (t1 & Hstep & Hloop).
  apply (IH t1 Hloop).
  destruct (lacksTitleType doc el) eqn:Hl.
  - rewrite (titleStep_lacking t el t1 Hstep Hl), Ht, present_Some.
    by rewrite (proj2 (truthy_true m) Hm).
  - by rewrite (titleStep_other t el t1 Hstep Hl Hel).
Qed.

Lemma titles_no_main els t r :
  loop (titleStep doc) els t = Ok r ->
  Forall (fun el => lacksTitleType doc el = false /\ isMainTitle doc el = false) els ->
  r !! main = t !! main.
Proof.
  intros Hloop Hels. revert t Hloop.
  induction Hels as [|el els [Hl Hm] _ IH]; intros t Hloop; [by injection Hloop as <-|].
  apply loop_cons_Ok in Hloop as (t1 & Hstep & Hloop).
  by rewrite (IH t1 Hloop), (titleStep_other t el t1 Hstep Hl Hm).
Qed.

Lemma titles_has_main els t r :
  loop (titleStep doc) els t = Ok r ->
  is_Some (r !! main)
  <-> is_Some (t !! main)
      \/ Exists (fun el => lacksTitleType doc el = true \/ isMainTitle doc el = true) els.
Proof.
  revert t. induction els as [|el els IH]; intros t Hloop.
  - injection Hloop as <-. rewrite Exists_nil. tauto.
  - apply loop_cons_Ok in Hloop as (t1 & Hstep & Hloop).
    rewrite (IH t1 Hloop), Exists_cons.
    destruct (lacksTitleType doc el) eqn:Hl.
    + rewrite (titleStep_lacking t el t1 Hstep Hl).
      destruct (t !! main) as [m|] eqn:Ht.
      * destruct (present (Some m)); split; intros _; left; eauto.
      * cbn [present]. split; intros _; [right; left; by left|left; eauto].
    + destruct (isMainTitle doc el) eqn:Hm.
      * rewrite (titleStep_explicit t el t1 Hstep Hm).
        split; intros _; [right; left; by right|left; eauto].
      * rewrite (titleStep_other t el t1 Hstep Hl Hm). split.
        -- intros [?|?]; [by left|by right; right].
        -- intros [?|[[?|?]|?]]; [by left|done|done|by right].
Qed.

Lemma titleStep_kind t el t' kind :
  titleStep doc t el = Ok t' ->
  kind <> main -> kind <> protoKey ->
  t' !! kind = if hasTitleType doc kind el then Some (textContent el) else t !! kind.
Proof.
  intros H Hkind Hproto. apply titleStep_Ok in H. unfold hasTitleType.
  destruct (lacksTitleType doc el) eqn:Hl.
  - assert (t' !! kind = t !! kind) as ->.
    { subst t'. destruct (present (t !! main)); [done|]. by rewrite lookup_insert_ne. }
    destruct (truthy kind) eqn:Hk; [|done]. cbn [andb].
    case_bool_decide as Ht; [|done].
    unfold lacksTitleType in Hl. rewrite Ht, present_Some, Hk in Hl. done.
  - destruct H as (k & Hk & Hne & ->). rewrite Hk, setProperty_lookup.
    rewrite (proj2 (streq_false kind protoKey) Hproto), andb_true_r.
    unfold streq. case_bool_decide as Heq.
    + subst k. rewrite (proj2 (truthy_true kind) Hne). cbn [andb].
      by rewrite bool_decide_eq_true_2.
    + rewrite (bool_decide_eq_false_2 (Some k = Some kind)) by congruence.
      by rewrite andb_false_r.
Qed.

Lemma titleStep_proto t el t' :
  titleStep doc t el = Ok t' -> t !! protoKey = None -> t' !! protoKey = None.
Proof.
  intros H Ht. apply titleStep_Ok in H.
  destruct (lacksTitleType doc el).
  - subst t'. destruct (present (t !! main)); [done|]. by rewrite lookup_insert_ne.
  - destruct H as (k & _ & _ & ->). by apply setProperty_proto.
Qed.

Lemma titles_kind_loop els t r kind :
  loop (titleStep doc) els t = Ok r ->
  kind <> main -> kind <> protoKey ->
  r !! kind
  = match last (List.filter (hasTitleType doc kind) els) with
    | Some el => Some (textContent el)
    | None => t !! kind
    end.
Proof.
  intros Hloop Hkind Hproto. revert t Hloop.
  induction els as [|el els IH]; intros t Hloop; [by injection Hloop as <-|].
  apply loop_cons_Ok in Hloop as (t1 & Hstep & Hloop).
  rewrite (IH t1 Hloop), last_filter_cons, (titleStep_kind t el t1 kind Hstep Hkind Hproto).
  destruct (last (List.filter _ els)); [done|].
  by destruct (hasTitleType doc kind el).
Qed.

Lemma titles_proto_loop els t r :
  loop (titleStep doc) els t = Ok r -> t !! protoKey = None -> r !! protoKey = None.
Proof.
  revert t. induction els as [|el els IH]; intros t Hloop Ht; [by injection Hloop as <-|].
  apply loop_cons_Ok in Hloop as (t1 & Hstep & Hloop).
  apply (IH t1 Hloop). by apply (titleStep_proto t el t1 Hstep).
Qed.

Lemma getTitles_loop :
  getTitles doc = loop (titleStep doc) (qualifiedElements doc (js "dc") (js "title")) ∅.
Proof.
  unfold getTitles. change (js "dc:title") with (js "dc:" ++ js "title").
  by rewrite (getMetas_dc doc (js "title") title_is_identifier).
Qed.

End Titles.

(** C6, as the code has it: when [getTitles] returns, the titles hold at
    most one [main] entry (they are a dictionary), and they hold one
    exactly when some [dc:title] has the title type [main] or lacks a title
    type after refinement; a document without such a title gets none.  The
    entry is the text of the last title of type [main] when that text is
    not empty, and, when no title has the type [main], the text of the
    first title that lacks a title type when that text is not empty. *)
Theorem getTitles_main_entry (doc : Document) (titles : gmap jsstring jsstring) :
  let els := qualifiedElements doc (js "dc") (js "title") in
  getTitles doc = Ok titles ->
  getMetas doc (js "dc:title") = Ok (Some els)
  /\ (is_Some (titles !! js "main") <->
      Exists (fun el => lacksTitleType doc el = true \/ isMainTitle doc el = true) els)
  /\ (forall pre el post, els = pre ++ el :: post ->
        isMainTitle doc el = true -> textContent el <> [] ->
        Forall (fun e => isMainTitle doc e = false) post ->
        titles !! js "main" = Some (textContent el))
  /\ (forall pre el post, els = pre ++ el :: post ->
        Forall (fun e => isMainTitle doc e = false) els ->
        Forall (fun e => lacksTitleType doc e = false) pre ->
        lacksTitleType doc el = true -> textContent el <> [] ->
        titles !! js "main" = Some (textContent el)).
Proof.
  intros els Htitles.
  split; [by apply (getMetas_dc doc (js "title"))|].
  rewrite getTitles_loop in Htitles. fold els in Htitles. fold main.
  split; [|split].
  - rewrite (titles_has_main doc els ∅ titles Htitles). split; [|by right].
    intros [[m Hm]|H]; [done|done].
  - intros pre el post Hels Hmain Htext Hpost. rewrite Hels, loop_app in Htitles.
    apply bind_Ok in Htitles as (t0 & _ & Htitles).
    apply loop_cons_Ok in Htitles as (t1 & Hstep & Htitles).
    apply (titles_keep_main doc post t1 titles (textContent el) Htitles); [|done|done].
    by apply (titleStep_explicit doc t0 el t1 Hstep).
  - intros pre el post Hels Hall Hpre Hlack Htext. rewrite Hels in Hall, Htitles.
    apply Forall_app in Hall as [Hpre' Hpost]. apply Forall_cons in Hpost as [_ Hpost].
    rewrite loop_app in Htitles.
    apply bind_Ok in Htitles as (t0 & Hbefore & Htitles).
    apply loop_cons_Ok in Htitles as (t1 & Hstep & Htitles).
    apply (titles_keep_main doc post t1 titles (textContent el) Htitles); [|done|done].
    rewrite (titleStep_lacking doc t0 el t1 Hstep Hlack).
    rewrite (titles_no_main doc pre ∅ t0 Hbefore); [done|].
    apply Forall_forall. intros e He.
    split; [by apply (proj1 (Forall_forall _ _) Hpre)|by apply (proj1 (Forall_forall _ _) Hpre')].
Qed.

(** C6 as stated fails: a package without a [dc:title] has no [main]
    entry, and neither has one whose only title is a subtitle. *)
Lemma getTitles_without_main :
  getTitles untitled = Ok ∅
  /\ exists titles,
       getTitles (package []
         [elem "dc:title" [("title-type", "subtitle")] [text "Part two"]] [] [])
       = Ok titles
       /\ titles = {[ js "subtitle" := js "Part two" ]}
       /\ titles !! js "main" = None.
Proof.
  split; [by vm_compute|]. eexists. split; [by vm_compute|]. split; [reflexivity|].
  by vm_compute.
Qed.

Lemma getTitles_main_entry_witness :
  exists titles,
    getTitles sampleTitles = Ok titles
    /\ titles !! js "main" = Some (js "Foo").
Proof.
  exists {[ js "main" := js "Foo"; js "subtitle" := js "Bar" ]}.
  assert (getTitles sampleTitles
          = Ok {[ js "main" := js "Foo"; js "subtitle" := js "Bar" ]}) as Htitles
    by (by vm_compute).
  split; [exact Htitles|].
  destruct (getTitles_main_entry sampleTitles _ Htitles) as (_ & _ & _ & Hfirst).
  apply (Hfirst []
           (mkElement (js "dc:title") [] (js "Foo") [js "metadata"; js "package"])
           [mkElement (js "dc:title") [(js "id", js "t2")] (js "Bar")
              [js "metadata"; js "package"]]).
  - reflexivity.
  - repeat constructor.
  - constructor.
  - reflexivity.
  - discriminate.
Defined.

(** X20: the titles other than [main].  When [getTitles] returns, under a
    title type that is neither [main] nor [__proto__] the titles hold the
    text of the last [dc:title] that has that type after refinement, and
    nothing when no title has it; titles without a type never write
    there.  Under [__proto__] nothing is stored, whatever the titles
    say. *)
Theorem getTitles_typed_last_wins (doc : Document) (titles : gmap jsstring jsstring)
    (kind : jsstring) :
  getTitles doc = Ok titles ->
  (kind <> js "main" -> kind <> protoKey ->
   titles !! kind
   = textContent <$>
       last (List.filter (hasTitleType doc kind)
               (qualifiedElements doc (js "dc") (js "title"))))
  /\ titles !! protoKey = None.
Proof.
  intros Htitles. rewrite getTitles_loop in Htitles. split.
  - intros Hkind Hproto.
    rewrite (titles_kind_loop doc _ ∅ titles kind Htitles Hkind Hproto), lookup_empty.
    by destruct (last _).
  - by apply (titles_proto_loop doc _ ∅ titles Htitles).
Qed.

Lemma getTitles_typed_witness :
  ({[ js "main" := js "Foo"; js "subtitle" := js "Bar" ]} : gmap jsstring jsstring)
    !! js "subtitle"
  = textContent <$>
      last (List.filter (hasTitleType sampleTitles (js "subtitle"))
              (qualifiedElements sampleTitles (js "dc") (js "title"))).
Proof.
  refine (proj1 (getTitles_typed_last_wins sampleTitles
                   {[ js "main" := js "Foo"; js "subtitle" := js "Bar" ]}
                   (js "subtitle") _) _ _); [by vm_compute|discriminate|discriminate].
Defined.

(** The example of the specification, and a title of type [__proto__]. *)
Example titles_of_sampleTitles :
  getTitles sampleTitles = Ok {[ js "main" := js "Foo"; js "subtitle" := js "Bar" ]}
  /\ getTitles (package []
       [elem "dc:title" [("title-type", "__proto__")] [text "Lost"]] [] [])
     = Ok ∅.
Proof. split; by vm_compute. Qed.

(** ** When getTitles returns *)

Lemma titleStep_returns doc t el :
  hasPlainId true el = true -> exists t', titleStep doc t el = Ok t'.
Proof.
  intros Hid. destruct (refineMeta_flat_returns doc el true Hid) as (view & Hview).
  unfold titleStep. rewrite Hview. cbn [bind].
  destruct (negb (present (flatProps view !! js "title-type"))); [|by eexists].
  destruct (negb (present (t !! js "main"))); by eexists.
Qed.

Lemma titles_loop_returns doc els t :
  Forall (fun el => hasPlainId true el = true) els ->
  exists t', loop (titleStep doc) els t = Ok t'.
Proof.
  intros Hels. revert t. induction Hels as [|el els Hel _ IH]; intros t; [by eexists|].
  destruct (titleStep_returns doc t el Hel) as (t1 & Hstep).
  cbn [loop]. rewrite Hstep. cbn [bind]. apply IH.
Qed.

(** X28: when [getTitles] returns and when it raises.  It returns when the
    id of every [dc:title] is missing, empty or made of letters, digits,
    hyphens and underscores.  When the first title whose id is not of that
    kind has an id with a dot after such units, the text that
    [refineMeta] hands to [querySelectorAll] is no selector and
    [getTitles] raises a SyntaxError; the titles read before are lost with
    it. *)
Theorem getTitles_returns_for_plain_ids (doc : Document) :
  let els := qualifiedElements doc (js "dc") (js "title") in
  (Forall (fun el => hasPlainId true el = true) els ->
   exists titles, getTitles doc = Ok titles)
  /\ (forall pre el post id,
        els = pre ++ el :: post ->
        Forall (fun e => hasPlainId true e = true) pre ->
        ownProperty true el (js "id") = Some id ->
        dotAfterName id = true ->
        getTitles doc = Throw SyntaxError).
Proof.
  intros els. rewrite getTitles_loop. fold els. split.
  - apply titles_loop_returns.
  - intros pre el post i -> Hpre Hid Hdot. rewrite loop_app.
    destruct (titles_loop_returns doc pre ∅ Hpre) as (t0 & ->).
    cbn [bind loop]. unfold titleStep.
    by rewrite (refineMeta_dotted doc el true true i Hid Hdot).
Qed.

(** A title whose id holds a dot, after a title that is read. *)
Example titles_of_dotted_id :
  getTitles (package []
    [ elem "dc:title" [] [text "Foo"];
      elem "dc:title" [("id", "t.1")] [text "Bar"] ] [] [])
  = Throw SyntaxError.
Proof. by vm_compute. Qed.
(** ** The sort of the creators *)

Lemma insertBySequence_perm a l : insertBySequence a l ≡ₚ a :: l.
Proof.
  induction l as [|b l IH]; [done|]. simpl.
  destruct (sequenceOf a <=? sequenceOf b)%Z; [done|].
  rewrite IH. apply Permutation_swap.
Qed.

Lemma sortBySequence_perm l : sortBySequence l ≡ₚ l.
Proof.
  induction l as [|a l IH]; [done|]. simpl.
  by rewrite insertBySequence_perm, IH.
Qed.

Lemma insertBySequence_sorted a l :
  StronglySorted bySequence l -> StronglySorted bySequence (insertBySequence a l).
Proof.
  induction 1 as [|b l Hl IH Hb]; simpl; [repeat constructor|].
  destruct (Z.leb_spec (sequenceOf a) (sequenceOf b)) as [Hab|Hab].
  - constructor; [by constructor|].
    constructor; [done|]. eapply Forall_impl; [exact Hb|].
    intros c Hc. unfold bySequence in *. lia.
  - constructor; [done|].
    assert (bySequence b a) as Hba by (unfold bySequence; lia).
    rewrite insertBySequence_perm. by constructor.
Qed.

Lemma sortBySequence_sorted l : StronglySorted bySequence (sortBySequence l).
Proof.
  induction l as [|a l IH]; simpl; [constructor|]. by apply insertBySequence_sorted.
Qed.

Lemma insertBySequence_withSequence seq a l :
  withSequence seq (insertBySequence a l) = withSequence seq (a :: l).
Proof.
  induction l as [|b l IH]; [done|]. simpl.
  destruct (Z.leb_spec (sequenceOf a) (sequenceOf b)) as [Hab|Hab]; [done|].
  unfold withSequence in *. simpl in *. rewrite IH.
  destruct (Z.eqb_spec (sequenceOf a) seq) as [Ha|_]; [|done].
  destruct (Z.eqb_spec (sequenceOf b) seq) as [Hb|_]; [|done].
  lia.
Qed.

Lemma sortBySequence_withSequence seq l :
  withSequence seq (sortBySequence l) = withSequence seq l.
Proof.
  induction l as [|a l IH]; [done|]. simpl.
  rewrite insertBySequence_withSequence. unfold withSequence in *. simpl.
  by rewrite IH.
Qed.

Lemma sortBySequence_nil l : sortBySequence l = [] <-> l = [].
Proof.
  split; [|by intros ->]. intros H.
  apply Permutation_nil_r. by rewrite <- H, sortBySequence_perm.
Qed.

Lemma sortBySequence_of_sorted l :
  StronglySorted bySequence l -> sortBySequence l = l.
Proof.
  induction 1 as [|a l Hl IH Ha]; [done|]. simpl. rewrite IH.
  destruct l as [|b l]; [done|]. simpl.
  apply Forall_cons in Ha as [Hab _]. unfold bySequence in Hab.
  by rewrite (proj2 (Z.leb_le _ _) Hab).
Qed.

(** What the code computes is the sequence, as long as it is exact. *)
Lemma displaySeq_Ok c n : displaySeq c = Ok n -> n = sequenceOf c.
Proof.
  unfold displaySeq, sequenceOf, parseInt.
  destruct (props c !! js "display-seq") as [s|]; [|by intros [= <-]].
  cbn [mbind option_bind]. destruct (integerPrefix s) as [k|]; [|by intros [= <-]].
  destruct (Z.abs k <=? 2 ^ 52)%Z; [by intros [= <-]|done].
Qed.

Lemma displaySeq_exact c : hasExactSequence c = true -> displaySeq c = Ok (sequenceOf c).
Proof.
  unfold hasExactSequence, displaySeq, sequenceOf, parseInt.
  destruct (props c !! js "display-seq") as [s|]; [|done].
  cbn [mbind option_bind]. destruct (integerPrefix s) as [k|]; [|done].
  cbn [default from_option id]. by intros ->.
Qed.

Lemma creatorSort_Ok a b order :
  creatorSort a b = Ok order -> order = (sequenceOf a - sequenceOf b)%Z.
Proof.
  unfold creatorSort. intros H.
  apply bind_Ok in H as (x & Hx & H). apply bind_Ok in H as (y & Hy & H).
  injection H as <-. by rewrite (displaySeq_Ok a x Hx), (displaySeq_Ok b y Hy).
Qed.

Lemma creatorSort_exact a b :
  hasExactSequence a = true -> hasExactSequence b = true ->
  creatorSort a b = Ok (sequenceOf a - sequenceOf b)%Z.
Proof.
  intros Ha Hb. unfold creatorSort.
  by rewrite (displaySeq_exact a Ha), (displaySeq_exact b Hb).
Qed.

Lemma order_le a b :
  (sequenceOf a - sequenceOf b <=? 0)%Z = (sequenceOf a <=? sequenceOf b)%Z.
Proof.
  destruct (Z.leb_spec (sequenceOf a - sequenceOf b) 0);
    destruct (Z.leb_spec (sequenceOf a) (sequenceOf b)); lia.
Qed.

Lemma insertCreator_Ok a l r : insertCreator a l = Ok r -> r = insertBySequence a l.
Proof.
  revert r. induction l as [|b l IH]; intros r; simpl; [by intros [= <-]|].
  intros H. apply bind_Ok in H as (order & Horder & H).
  apply creatorSort_Ok in Horder as ->. rewrite order_le in H.
  destruct (sequenceOf a <=? sequenceOf b)%Z; [by injection H as <-|].
  apply bind_Ok in H as (rest & Hrest & H). injection H as <-.
  by rewrite (IH rest Hrest).
Qed.

Lemma insertCreator_exact a l :
  hasExactSequence a = true -> forallb hasExactSequence l = true ->
  insertCreator a l = Ok (insertBySequence a l).
Proof.
  intros Ha. induction l as [|b l IH]; [done|]. cbn [forallb]. intros Hl.
  apply andb_true_iff in Hl as [Hb Hl]. cbn [insertCreator insertBySequence].
  rewrite (creatorSort_exact a b Ha Hb). cbn [bind]. rewrite order_le.
  destruct (sequenceOf a <=? sequenceOf b)%Z; [done|]. by rewrite (IH Hl).
Qed.

Lemma arraySort_Ok l r : arraySort l = Ok r -> r = sortBySequence l.
Proof.
  revert r. induction l as [|a l IH]; intros r; simpl; [by intros [= <-]|].
  intros H. apply bind_Ok in H as (sorted & Hsorted & H).
  apply insertCreator_Ok in H as ->. by rewrite (IH sorted Hsorted).
Qed.

Lemma arraySort_exact l :
  forallb hasExactSequence l = true -> arraySort l = Ok (sortBySequence l).
Proof.
  induction l as [|a l IH]; [done|]. cbn [forallb]. intros Hl.
  apply andb_true_iff in Hl as [Ha Hl]. cbn [arraySort].
  rewrite (IH Hl). cbn [bind]. apply (insertCreator_exact a _ Ha).
  apply forallb_forall. intros c Hc.
  apply (proj1 (forallb_forall _ _) Hl).
  apply list_elem_of_In. apply list_elem_of_In in Hc.
  by rewrite <- (sortBySequence_perm l).
Qed.

(** X13: the sort that [parseCreators] applies to a group.  The sort of a
    group whose display sequences are all exact (at most 2^52 in absolute
    value) returns, and whenever the sort of a group returns, the result
    keeps the creators (it is a permutation), puts them in ascending
    display sequence, where a sequence that is missing or not a number
    counts as 0, and is stable: the creators with one and the same
    sequence stay in their order.  A group that is already in ascending
    sequence, such as one without any [display-seq], is left as it is. *)
Theorem arraySort_is_a_stable_sort (group : list Creator) :
  (forallb hasExactSequence group = true -> exists sorted, arraySort group = Ok sorted)
  /\ (forall sorted, arraySort group = Ok sorted ->
        sorted ≡ₚ group
        /\ StronglySorted bySequence sorted
        /\ (forall seq, withSequence seq sorted = withSequence seq group)
        /\ (StronglySorted bySequence group -> sorted = group))
  /\ (forall c, props c !! js "display-seq" = None ->
        displaySeq c = Ok 0%Z /\ sequenceOf c = 0%Z).
Proof.
  split; [|split].
  - intros H. eexists. by apply arraySort_exact.
  - intros sorted Hs. apply arraySort_Ok in Hs as ->.
    split; [apply sortBySequence_perm|]. split; [apply sortBySequence_sorted|].
    split; [intros seq; apply sortBySequence_withSequence|].
    apply sortBySequence_of_sorted.
  - intros c Hc. unfold displaySeq, sequenceOf. by rewrite Hc.
Qed.

(** Three creators: the two with the sequence 1 keep their order.  For a
    sequence beyond 2^52 nothing is stated. *)
Example arraySort_of_three :
  arraySort [mkCreator (js "Bob") {[ js "display-seq" := js "2" ]};
             mkCreator (js "Ann") {[ js "display-seq" := js "1" ]};
             mkCreator (js "Eve") {[ js "display-seq" := js " +1st" ]}]
  = Ok [mkCreator (js "Ann") {[ js "display-seq" := js "1" ]};
        mkCreator (js "Eve") {[ js "display-seq" := js " +1st" ]};
        mkCreator (js "Bob") {[ js "display-seq" := js "2" ]}]
  /\ arraySort [mkCreator (js "Bob") {[ js "display-seq" := js "9007199254740993" ]};
                mkCreator (js "Ann") {[ js "display-seq" := js "9007199254740992" ]}]
     = Unspecified
  /\ arraySort [mkCreator (js "Bob") {[ js "display-seq" := js "9007199254740993" ]}]
     = Ok [mkCreator (js "Bob") {[ js "display-seq" := js "9007199254740993" ]}].
Proof. split; [|split]; by vm_compute. Qed.

(** The second loop of [parseCreators] sorts every group. *)
Lemma sortGroup_loop entries acc r :
  loop sortGroup entries acc = Ok r ->
  r = fold_left (fun acc entry => <[entry.1 := sortBySequence entry.2]> acc) entries acc.
Proof.
  revert acc. induction entries as [|entry entries IH]; intros acc; simpl.
  - by intros [= <-].
  - intros H. apply bind_Ok in H as (acc' & Hstep & H).
    unfold sortGroup in Hstep. apply bind_Ok in Hstep as (sorted & Hsorted & Hstep).
    injection Hstep as <-. apply arraySort_Ok in Hsorted as ->. by apply IH.
Qed.

Lemma sorted_fold_lookup (entries : list (jsstring * list Creator))
    (acc : gmap jsstring (list Creator)) key :
  NoDup entries.*1 ->
  fold_left (fun acc entry => <[entry.1 := sortBySequence entry.2]> acc) entries acc !! key
  = match (list_to_map entries : gmap jsstring (list Creator)) !! key with
    | Some group => Some (sortBySequence group)
    | None => acc !! key
    end.
Proof.
  revert acc. induction entries as [|[k v] entries IH]; intros acc Hnd; [done|].
  cbn [fold_left fmap list_fmap fst snd] in *. apply NoDup_cons in Hnd as [Hk Hnd].
  rewrite (IH _ Hnd). cbn [list_to_map foldr uncurry fst snd].
  destruct (decide (key = k)) as [->|Hne].
  - rewrite (not_elem_of_list_to_map_1 _ _ Hk). by rewrite !lookup_insert_eq.
  - by rewrite !lookup_insert_ne.
Qed.

Lemma sortGroups_Ok creators r :
  sortGroups creators = Ok r -> r = sortBySequence <$> creators.
Proof.
  unfold sortGroups. intros H. apply sortGroup_loop in H as ->.
  apply map_eq. intros key.
  rewrite (sorted_fold_lookup _ _ key (NoDup_fst_map_to_list creators)).
  rewrite list_to_map_to_list, lookup_fmap.
  by destruct (creators !! key).
Qed.

(** ** parseCreators: the groups *)

Lemma creator_is_identifier : isCssIdentifier (js "creator") = true.
Proof. reflexivity. Qed.


Section CreatorGroups.

Variable doc : Document.

(** A turn that returns files the creator at the end of the group of its
    role. *)
Lemma creatorStep_files creators el creators' :
  creatorStep doc creators el = Ok creators' ->
  creators'
  = <[roleOf doc el := default [] (creators !! roleOf doc el) ++ [creatorOf doc el]]>
      creators.
Proof.
  unfold creatorStep. intros H. apply bind_Ok in H as (view & Hview & H).
  unfold roleOf, creatorOf. rewrite (flatView_Ok doc el view Hview). cbv zeta.
  destruct (present (<[js "name" := textContent el]> (flatProps view) !! js "role"));
    cbn [negb] in *.
  - destruct (_ !! default [] _) as [group|]; [by injection H as <-|].
    destruct (inherited _); [done|]. by injection H as <-.
  - rewrite lookup_insert_eq in H. cbn [default from_option id] in H.
    destruct (creators !! js "unknown") as [group|]; [by injection H as <-|].
    destruct (inherited _); [done|]. by injection H as <-.
Qed.

(** A turn for a role that names a member of [Object.prototype] and has
    no group raises. *)
Lemma creatorStep_raises creators el :
  hasPlainId true el = true ->
  inherited (roleOf doc el) = true -> creators !! roleOf doc el = None ->
  creatorStep doc creators el = Throw TypeError.
Proof.
  intros Hid Hrole Hnone.
  destruct (refineMeta_flat_returns doc el true Hid) as (view & Hview).
  revert Hrole Hnone. unfold creatorStep, roleOf.
  rewrite (flatView_Ok doc el view Hview), Hview. cbn [bind]. cbv zeta.
  destruct (present (<[js "name" := textContent el]> (flatProps view) !! js "role"));
    cbn [negb].
  - by intros -> ->.
  - rewrite lookup_insert_eq. cbn [default from_option id]. by intros -> ->.
Qed.

Lemma creators_loop_lookup els creators r role :
  loop (creatorStep doc) els creators = Ok r ->
  r !! role
  = match map (creatorOf doc) (List.filter (fun el => streq (roleOf doc el) role) els) with
    | [] => creators !! role
    | found => Some (default [] (creators !! role) ++ found)
    end.
Proof.
  revert creators. induction els as [|el els IH]; intros creators Hloop.
  - by injection Hloop as <-.
  - apply loop_cons_Ok in Hloop as (c1 & Hstep & Hloop).
    apply creatorStep_files in Hstep as ->. rewrite (IH _ Hloop). simpl.
    unfold streq at 2. case_bool_decide as Hrole.
    + subst role. rewrite lookup_insert_eq. simpl.
      destruct (map _ _) as [|c cs]; [done|]. simpl. by rewrite <- app_assoc.
    + by rewrite lookup_insert_ne.
Qed.

Lemma sorted_creators_lookup folded role :
  loop (creatorStep doc) (qualifiedElements doc (js "dc") (js "creator")) ∅ = Ok folded ->
  (sortBySequence <$> folded) !! role = nonEmpty (sortedGroup doc role).
Proof.
  intros Hloop. rewrite lookup_fmap, (creators_loop_lookup _ _ _ role Hloop), lookup_empty.
  unfold sortedGroup, creatorsWithRole.
  destruct (map _ _) as [|c cs] eqn:Hmap; [done|].
  change (default [] None ++ c :: cs) with (c :: cs).
  change (sortBySequence <$> Some (c :: cs)) with (Some (sortBySequence (c :: cs))).
  destruct (sortBySequence (c :: cs)) eqn:Hs; [|done].
  apply (proj1 (sortBySequence_nil _)) in Hs. discriminate.
Qed.

Lemma parseCreators_sorted_groups creators :
  parseCreators doc = Ok creators ->
  exists folded,
    loop (creatorStep doc) (qualifiedElements doc (js "dc") (js "creator")) ∅ = Ok folded
    /\ creators
       = match nonEmpty (sortedGroup doc (js "unknown")),
               nonEmpty (sortedGroup doc (js "aut")) with
         | Some unknown, None =>
             delete (js "unknown") (<[js "aut" := unknown]> (sortBySequence <$> folded))
         | _, _ => sortBySequence <$> folded
         end.
Proof.
  unfold parseCreators.
  change (js "dc:creator") with (js "dc:" ++ js "creator").
  rewrite (getMetas_dc doc (js "creator") creator_is_identifier). cbn [bind].
  intros H. apply bind_Ok in H as (folded & Hloop & H).
  apply bind_Ok in H as (sorted & Hsorted & H).
  exists folded. split; [done|].
  apply sortGroups_Ok in Hsorted as ->.
  rewrite !(sorted_creators_lookup folded _ Hloop) in H.
  destruct (nonEmpty (sortedGroup doc (js "unknown")));
    destruct (nonEmpty (sortedGroup doc (js "aut"))); by injection H as <-.
Qed.



End CreatorGroups.

(** X14: the groups of [parseCreators], when it returns.  The group of a
    role is the [dc:creator] elements filed under that role, each with its
    refined properties and its text as name, in the stable ascending order
    of their display sequence; a role without creators has no group.
    Creators without a role are filed under [unknown], and when no creator
    has the role [aut] they become the [aut] group and [unknown]
    disappears.  When some creator has the role [aut], both groups
    stay. *)
Theorem parseCreators_groups (doc : Document) (creators : gmap jsstring (list Creator))
    (role : jsstring) :
  parseCreators doc = Ok creators ->
  (role <> js "aut" -> role <> js "unknown" ->
     creators !! role = nonEmpty (sortedGroup doc role))
  /\ creators !! js "aut"
     = match sortedGroup doc (js "aut") with
       | [] => nonEmpty (sortedGroup doc (js "unknown"))
       | aut => Some aut
       end
  /\ creators !! js "unknown"
     = match sortedGroup doc (js "aut") with
       | [] => None
       | _ => nonEmpty (sortedGroup doc (js "unknown"))
       end.
Proof.
  intros H. apply parseCreators_sorted_groups in H as (folded & Hloop & ->).
  pose proof (sorted_creators_lookup doc folded) as Hlookup.
  destruct (sortedGroup doc (js "unknown")) as [|u us] eqn:Hu;
    destruct (sortedGroup doc (js "aut")) as [|a aut] eqn:Ha; cbn [nonEmpty].
  - split; [intros; by apply Hlookup|].
    rewrite !Hlookup, Hu, Ha by done. done.
  - split; [intros; by apply Hlookup|].
    rewrite !Hlookup, Hu, Ha by done. done.
  - split; [|split].
    + intros Haut Hunknown.
      rewrite lookup_delete_ne, lookup_insert_ne by done.
      by apply Hlookup.
    + by rewrite lookup_delete_ne, lookup_insert_eq.
    + by rewrite lookup_delete_eq.
  - split; [intros; by apply Hlookup|].
    rewrite !Hlookup, Hu, Ha by done. done.
Qed.

Lemma parseCreators_groups_witness :
  exists creators,
    parseCreators threeCreators = Ok creators
    /\ creators !! js "aut"
       = match sortedGroup threeCreators (js "aut") with
         | [] => nonEmpty (sortedGroup threeCreators (js "unknown"))
         | aut => Some aut
         end.
Proof.
  eexists. split; [by vm_compute|].
  refine (proj1 (proj2 (parseCreators_groups threeCreators _ (js "aut") _))).
  by vm_compute.
Defined.



(** X26: a creator cannot have every role.  When the first [dc:creator]
    of a package has, after refinement, a role that names a member of
    [Object.prototype], such as [constructor] or [toString], the code
    finds that member where it looks for the group, makes no array, and
    [parseCreators] raises a TypeError on [push]. *)
Theorem parseCreators_raises_on_inherited_role (doc : Document) (el : Element)
    (rest : list Element) :
  qualifiedElements doc (js "dc") (js "creator") = el :: rest ->
  hasPlainId true el = true ->
  inherited (roleOf doc el) = true ->
  parseCreators doc = Throw TypeError.
Proof.
  intros Hels Hid Hrole. unfold parseCreators.
  change (js "dc:creator") with (js "dc:" ++ js "creator").
  rewrite (getMetas_dc doc (js "creator") creator_is_identifier), Hels. cbn [bind loop].
  by rewrite (creatorStep_raises doc ∅ el Hid Hrole (lookup_empty _)).
Qed.

Lemma parseCreators_raises_witness :
  parseCreators (package []
    [elem "dc:creator" [("opf:role", "constructor")] [text "Ann"]] [] [])
  = Throw TypeError.
Proof.
  apply (parseCreators_raises_on_inherited_role _
           (mkElement (js "dc:creator") [(js "opf:role", js "constructor")] (js "Ann")
              [js "metadata"; js "package"]) []);
    reflexivity.
Defined.

(** ** The publication date *)

Section Assembler.

Variable formatISBN : jsstring -> jsstring.
Variable validateISBN : jsstring -> bool.
Variable printMember : jsstring -> jsstring.
Variable dateParse : jsstring -> option Z.
Variable Language : Type.
Variable parseLanguage : jsstring -> Language.

Local Abbreviation construct :=
  (constructor formatISBN validateISBN printMember dateParse Language parseLanguage).

(** What the constructor leaves in the fields that it fills without a
    resolver of their own. *)
Lemma constructor_fields doc r :
  construct doc = Ok r ->
  publicationDate Language r = dateField dateParse doc
  /\ spine Language r = parseSpine doc
  /\ coverPage Language r = getCoverPage doc.
Proof.
  unfold constructor.
  change (js "dc:description") with (js "dc:" ++ js "description").
  change (js "dc:date") with (js "dc:" ++ js "date").
  change (js "dc:publisher") with (js "dc:" ++ js "publisher").
  change (js "dc:language") with (js "dc:" ++ js "language").
  change (js "dc:rights") with (js "dc:" ++ js "rights").
  rewrite !getMetaText_dc by done. intros H.
  apply bind_Ok in H as (titles & _ & H). cbn [bind] in H.
  apply bind_Ok in H as (ids & _ & H).
  apply bind_Ok in H as (creators & _ & H). cbn [bind] in H.
  apply bind_Ok in H as (cover & _ & H). cbn [bind] in H.
  injection H as <-. cbn [publicationDate spine coverPage].
  split; [|done]. unfold dateField, dateElements.
  by destruct (qualifiedElements doc (js "dc") (js "date")).
Qed.

(** C9, as the code has it: reading the date never raises.  In the
    package that the constructor returns, the publication date is [null]
    when the document has no [dc:date]; it is the empty text when the
    first [dc:date] is empty; otherwise it is the [Date] built from the
    text, and for a text that the date parser cannot read that is the
    Invalid Date object, not an absent value. *)
Theorem publicationDate_of_unparseable_text (doc : Document) :
  getMetaText doc (js "dc:date") = Ok (textContent <$> head (dateElements doc))
  /\ (forall r, construct doc = Ok r ->
      publicationDate Language r = dateField dateParse doc
      /\ match dateElements doc with
         | [] => publicationDate Language r = None
         | el :: _ =>
             (textContent el = [] -> publicationDate Language r = Some (DateText []))
             /\ (textContent el <> [] ->
                 publicationDate Language r
                 = Some (DateObject (newDate dateParse (textContent el)))
                 /\ (dateParse (textContent el) = None ->
                     publicationDate Language r = Some (DateObject InvalidDate)))
         end).
Proof.
  split; [by apply (getMetaText_dc doc (js "date"))|].
  intros r Hr. destruct (constructor_fields doc r Hr) as (Hdate & _).
  rewrite Hdate. split; [done|].
  unfold dateField. destruct (dateElements doc) as [|el rest]; [done|].
  split.
  - by intros ->.
  - intros Htext. rewrite (proj2 (truthy_true _) Htext). split; [done|].
    intros Hparse. unfold newDate. by rewrite Hparse.
Qed.

End Assembler.

(** C9 as stated fails: for a date text that the parser cannot read, with
    any collaborators, the constructor returns and the field holds the
    Invalid Date object. *)
Lemma unparseable_date_is_not_absent :
  textContent <$> head (dateElements undated) = Some (js "not a date")
  /\ forall formatISBN validateISBN printMember dateParse (Language : Type)
       (parseLanguage : jsstring -> Language),
       dateParse (js "not a date") = None ->
       exists r,
         constructor formatISBN validateISBN printMember dateParse Language parseLanguage undated
         = Ok r
         /\ publicationDate Language r = Some (DateObject InvalidDate).
Proof.
  split; [reflexivity|]. intros fmt val printed parse L pl Hparse.
  eexists. split; [vm_compute; reflexivity|].
  vm_compute. vm_compute in Hparse. by rewrite Hparse.
Qed.
(** * The reader component *)

(** ** readContainerXML *)

Lemma leading_slash (c : N) (full : jsstring) :
  match c :: full with
  | 47 :: rest => Root.Resolve rest
  | whole => Root.Resolve whole
  end = Root.Resolve (if c =? 47 then full else c :: full).
Proof.
  destruct (N.eqb_spec c 47) as [->|Hc]; [done|].
  destruct c as [|p]; [done|].
  do 6 (destruct p as [p|p|]; try done).
Qed.

(** X21: [readContainerXML] looks at the first [rootfile] only.  It
    resolves exactly when that element has a [full-path] that is not empty,
    with the path less one leading slash (a second slash stays, and the
    path [/] resolves to the empty path); it rejects for want of
    representations exactly when there is no [container > rootfiles >
    rootfile] element, and for want of a path exactly when the first one
    has no [full-path] or an empty one, whatever the later ones say. *)
Theorem readContainerXML_first_rootfile (doc : Document) :
  (forall path,
     Root.readContainerXML doc = Root.Resolve path <->
     exists el rest full,
       Root.rootfiles doc = el :: rest
       /\ getAttribute el (js "full-path") = Some full /\ full <> []
       /\ (full = 47 :: path \/ (full = path /\ head full <> Some 47)))
  /\ (Root.readContainerXML doc = Root.Reject Root.NoRepresentations <->
      Root.rootfiles doc = [])
  /\ (Root.readContainerXML doc = Root.Reject Root.NoPackagePath <->
      exists el rest,
        Root.rootfiles doc = el :: rest
        /\ present (getAttribute el (js "full-path")) = false).
Proof.
  unfold Root.readContainerXML.
  destruct (Root.rootfiles doc) as [|el rest].
  { split; [|split]; [intros path| |]; split; try done.
    - by intros (? & ? & ? & ? & _).
    - by intros (? & ? & ? & _). }
  destruct (getAttribute el (js "full-path")) as [full|] eqn:Hfull; cbn [present negb].
  - destruct full as [|c full']; cbn [truthy negb default from_option id].
    + split; [|split]; [intros path| |]; split; try done.
      * intros (el' & rest' & full & Hroot & Hattr & Hne & _).
        injection Hroot as <- <-. rewrite Hfull in Hattr. by injection Hattr as <-.
      * intros _. exists el, rest. by rewrite Hfull.
    + rewrite leading_slash. split; [|split]; [intros path| |]; split; try done.
      * intros [= <-]. exists el, rest, (c :: full'). split; [done|]. split; [done|].
        split; [done|]. destruct (N.eqb_spec c 47) as [->|Hc]; [by left|right].
        split; [done|]. simpl. congruence.
      * intros (el' & rest' & full & Hroot & Hattr & _ & Hcases).
        injection Hroot as <- <-. rewrite Hfull in Hattr. injection Hattr as <-.
        destruct Hcases as [[= -> ->]|[<- Hhead]]; [done|].
        destruct (N.eqb_spec c 47) as [->|Hc]; done.
      * intros (el' & rest' & Hroot & Hattr). injection Hroot as <- <-.
        by rewrite Hfull in Hattr.
  - split; [|split]; [intros path| |]; split; try done.
    + intros (el' & rest' & full & Hroot & Hattr & _).
      injection Hroot as <- <-. congruence.
    + intros _. exists el, rest. by rewrite Hfull.
Qed.

(** ** The key handlers *)

Set Warnings "-clear-no-such-hyp".

Lemma paging_key k :
  bool_decide (k = 32%Z) || bool_decide (k = 39%Z) || bool_decide (k = 37%Z) = true
  <-> k ∈ pagingKeys.
Proof.
  unfold pagingKeys. rewrite !orb_true_iff, !bool_decide_eq_true. set_solver.
Qed.

Lemma onkeydown_spec k st :
  Root.onkeydown k st
  = if bool_decide (k ∈ pagingKeys) && negb (bool_decide (k ∈ Root.keysDown st))
    then Root.mkKeys ({[ k ]} ∪ Root.keysDown st) (Root.turns st ++ [turnOf k])
    else st.
Proof.
  unfold Root.onkeydown, turnOf.
  destruct (decide (k = 32%Z)) as [->|H32].
  { rewrite (bool_decide_eq_true_2 (32%Z ∈ pagingKeys)) by (by apply paging_key).
    by destruct (bool_decide (32%Z ∈ Root.keysDown st)). }
  destruct (decide (k = 39%Z)) as [->|H39].
  { rewrite (bool_decide_eq_true_2 (39%Z ∈ pagingKeys)) by (by apply paging_key).
    by destruct (bool_decide (39%Z ∈ Root.keysDown st)). }
  rewrite (bool_decide_eq_false_2 (k = 32%Z)), (bool_decide_eq_false_2 (k = 39%Z)) by done.
  cbn [orb]. destruct (decide (k = 37%Z)) as [->|H37].
  { rewrite (bool_decide_eq_true_2 (37%Z ∈ pagingKeys)) by (by apply paging_key).
    by destruct (bool_decide (37%Z ∈ Root.keysDown st)). }
  rewrite (bool_decide_eq_false_2 (k = 37%Z)) by done.
  rewrite (bool_decide_eq_false_2 (k ∈ pagingKeys)); [done|].
  unfold pagingKeys. set_solver.
Qed.

Lemma onkeyup_spec k st :
  Root.onkeyup k st
  = if bool_decide (k ∈ pagingKeys) && bool_decide (k ∈ Root.keysDown st)
    then Root.mkKeys (Root.keysDown st ∖ {[ k ]}) (Root.turns st)
    else st.
Proof.
  unfold Root.onkeyup.
  destruct (bool_decide (k = 32%Z) || bool_decide (k = 39%Z) || bool_decide (k = 37%Z))
    eqn:Hk.
  - apply paging_key in Hk. rewrite (bool_decide_eq_true_2 _ Hk).
    by destruct (bool_decide (k ∈ Root.keysDown st)).
  - rewrite (bool_decide_eq_false_2 (k ∈ pagingKeys)); [done|].
    intros Hin. apply paging_key in Hin. congruence.
Qed.

(** X22: key repeat turns one page.  A second [keydown] of a key, with no
    [keyup] between, changes nothing, so holding a key down does not leaf
    through the book; a key that is not down when it is pressed turns one
    page (back for the left arrow, forward for space and the right arrow)
    and its release leaves [keysDown] as it was before; keys other than
    the three are ignored by both handlers. *)
Theorem keydown_repeats_are_ignored (keyCode : Z) (st : Root.Keys) :
  Root.onkeydown keyCode (Root.onkeydown keyCode st) = Root.onkeydown keyCode st
  /\ (keyCode ∈ pagingKeys -> keyCode ∉ Root.keysDown st ->
      Root.onkeyup keyCode (Root.onkeydown keyCode st)
      = Root.mkKeys (Root.keysDown st) (Root.turns st ++ [turnOf keyCode]))
  /\ (keyCode ∉ pagingKeys ->
      Root.onkeydown keyCode st = st /\ Root.onkeyup keyCode st = st).
Proof.
  split; [|split].
  - rewrite (onkeydown_spec keyCode st).
    destruct (decide (keyCode ∈ pagingKeys)) as [Hp|Hp];
      [|by rewrite (bool_decide_eq_false_2 _ Hp), onkeydown_spec,
                   (bool_decide_eq_false_2 _ Hp)].
    destruct (decide (keyCode ∈ Root.keysDown st)) as [Hd|Hd].
    + by rewrite (bool_decide_eq_true_2 _ Hd), andb_false_r, onkeydown_spec,
                 (bool_decide_eq_true_2 _ Hd), andb_false_r.
    + rewrite (bool_decide_eq_true_2 _ Hp), (bool_decide_eq_false_2 _ Hd).
      cbn [andb negb]. rewrite onkeydown_spec. cbn [Root.keysDown].
      rewrite (bool_decide_eq_true_2 (keyCode ∈ {[keyCode]} ∪ Root.keysDown st))
        by (apply elem_of_union; left; by apply elem_of_singleton).
      by rewrite andb_false_r.
  - intros Hp Hd. rewrite onkeydown_spec.
    rewrite (bool_decide_eq_true_2 _ Hp), (bool_decide_eq_false_2 _ Hd).
    cbn [andb negb]. rewrite onkeyup_spec. cbn [Root.keysDown Root.turns].
    rewrite (bool_decide_eq_true_2 _ Hp).
    rewrite (bool_decide_eq_true_2 (keyCode ∈ {[keyCode]} ∪ Root.keysDown st))
      by (apply elem_of_union; left; by apply elem_of_singleton).
    cbn [andb]. f_equal. set_solver.
  - intros Hp. rewrite onkeydown_spec, onkeyup_spec.
    by rewrite !(bool_decide_eq_false_2 _ Hp).
Qed.

Lemma handle_invariant st e ups :
  Root.keysDown st ⊆ pagingKeys ->
  (List.length (Root.turns st) <= ups + size (Root.keysDown st))%nat ->
  Root.keysDown (Root.handle st e) ⊆ pagingKeys
  /\ (List.length (Root.turns (Root.handle st e))
      <= ups + (if isKeyUp e then 1 else 0) + size (Root.keysDown (Root.handle st e)))%nat.
Proof.
  intros Hsub Hlen. destruct e as [k|k]; cbn [Root.handle isKeyUp].
  - rewrite onkeydown_spec.
    destruct (bool_decide (k ∈ pagingKeys)) eqn:Hp; cbn [andb]; [|split; [done|lia]].
    destruct (bool_decide (k ∈ Root.keysDown st)) eqn:Hd; cbn [negb]; [split; [done|lia]|].
    apply bool_decide_eq_true in Hp. apply bool_decide_eq_false in Hd.
    cbn [Root.keysDown Root.turns]. split; [set_solver|].
    rewrite length_app, size_union, size_singleton by set_solver. simpl. lia.
  - rewrite onkeyup_spec.
    destruct (bool_decide (k ∈ pagingKeys)) eqn:Hp; cbn [andb]; [|split; [done|lia]].
    destruct (bool_decide (k ∈ Root.keysDown st)) eqn:Hd; [|split; [done|lia]].
    apply bool_decide_eq_true in Hd.
    cbn [Root.keysDown Root.turns]. split; [set_solver|].
    assert (size (Root.keysDown st) = S (size (Root.keysDown st ∖ {[k]}))) as Hsize.
    { rewrite (union_difference_L {[k]} (Root.keysDown st)) at 1 by set_solver.
      rewrite size_union, size_singleton by set_solver. done. }
    lia.
Qed.

Lemma afterEvents_invariant events :
  Root.keysDown (Root.afterEvents events) ⊆ pagingKeys
  /\ (List.length (Root.turns (Root.afterEvents events))
      <= keyUps events + size (Root.keysDown (Root.afterEvents events)))%nat.
Proof.
  induction events as [|e events IH] using rev_ind.
  - split; [set_solver|]. simpl. lia.
  - destruct IH as [Hsub Hlen]. unfold Root.afterEvents, keyUps in *.
    rewrite fold_left_app, List.filter_app, length_app. cbn [fold_left].
    destruct (handle_invariant _ e _ Hsub Hlen) as [Hsub' Hlen'].
    split; [done|]. simpl. destruct (isKeyUp e); simpl in *; lia.
Qed.

(** X23: the keys that are down and the pages turned.  After any sequence
    of key events, starting from the constructor's empty [keysDown], only
    space and the left and right arrows can be marked as down, and the
    number of calls made on the paginator is at most the number of [keyup]
    events plus three: beyond the first press of each key, every page turn
    needs a release. *)
Theorem page_turns_need_releases (events : list Root.KeyEvent) :
  (forall keyCode, keyCode ∈ Root.keysDown (Root.afterEvents events) ->
     keyCode = 32%Z \/ keyCode = 37%Z \/ keyCode = 39%Z)
  /\ (List.length (Root.turns (Root.afterEvents events)) <= keyUps events + 3)%nat.
Proof.
  destruct (afterEvents_invariant events) as [Hsub Hlen]. split.
  - intros k Hk. apply Hsub in Hk. unfold pagingKeys in Hk. set_solver.
  - apply subseteq_size in Hsub.
    assert (size pagingKeys = 3%nat) as Hthree by (by vm_compute).
    lia.
Qed.

(** ** Opening a package *)

Section Opening.

Variable formatISBN : jsstring -> jsstring.
Variable validateISBN : jsstring -> bool.
Variable printMember : jsstring -> jsstring.
Variable dateParse : jsstring -> option Z.
Variable Language : Type.
Variable parseLanguage : jsstring -> Language.

(** X24: opening a package that the constructor has built.  When the
    document has no [package > spine] element, [componentDidMount] raises a
    TypeError on [opf.spine.items] and never creates the paginator, even
    when the package has a cover page.  When it has one, the paginator
    gets what the linear itemrefs resolve to in the manifest object, in
    reading order: the href of the manifest item, or the member of
    [Object.prototype] that the idref names when no item has that id.  The
    page loaded first is the cover page of the guide when that is set and
    not empty, and the first entry of the spine otherwise (none for an
    empty spine). *)
Theorem opening_needs_a_spine (doc : Document) (r : OPF Language) :
  constructor formatISBN validateISBN printMember dateParse Language parseLanguage doc = Ok r ->
  let mounted := Root.componentDidMount (coverPage Language r) (spine Language r) in
  let readingOrder := omap (resolveItemref (parseManifest doc)) (spineItemrefs doc) in
  let first :=
    if present (getCoverPage doc) then Str <$> getCoverPage doc else head readingOrder in
  (querySelector doc (SelPackageChild (js "spine")) = None ->
     mounted.2 = Some TypeError
     /\ forall items, Root.NewPaginator items ∉ mounted.1)
  /\ (is_Some (querySelector doc (SelPackageChild (js "spine"))) ->
      mounted
      = ([Root.SetUri first; Root.NewPaginator readingOrder; Root.Load first;
          Root.ListenToKeys], None)).
Proof.
  intros Hr.
  destruct (constructor_fields formatISBN validateISBN printMember dateParse Language
              parseLanguage doc r Hr) as (_ & -> & ->).
  cbv zeta. unfold Root.componentDidMount.
  destruct (querySelector doc (SelPackageChild (js "spine"))) as [spineEl|] eqn:Hspine.
  - split; [done|]. intros _.
    destruct (parseSpine doc) as [sp|] eqn:Hsp.
    + rewrite (parseSpine_items doc sp Hsp). by destruct (present (getCoverPage doc)).
    + unfold parseSpine in Hsp. by rewrite Hspine in Hsp.
  - split; [|by intros [? ?]]. intros _.
    unfold parseSpine. rewrite Hspine.
    destruct (present (getCoverPage doc)); cbn [fst snd].
    + split; [done|]. intros items Hin.
      apply elem_of_cons in Hin as [?|Hin]; [done|]. by apply elem_of_nil in Hin.
    + split; [done|]. intros items Hin. by apply elem_of_nil in Hin.
Qed.

End Opening.

(** A package with a cover image and a cover page and no spine. *)
Lemma opening_needs_a_spine_witness :
  (Root.componentDidMount (Some (js "title.xhtml")) None).2 = Some TypeError.
Proof.
  pose (doc := elem "package" []
    [ elem "manifest" []
        [ elem "item" [("id", "c"); ("href", "c.png"); ("properties", "cover-image")] [] ];
      elem "guide" []
        [ elem "reference" [("type", "cover"); ("href", "title.xhtml")] [] ] ]).
  destruct (opening_needs_a_spine unhyphenated checkDigits nativeCode (fun _ => None) unit
              (fun _ => tt) doc
              (mkOPF unit ∅ None None None None None noIdentifiers ∅ [] [] None
                 (mkCoverImage (Some (js "c.png")) (Some (js "image/png")))
                 None (Some (js "title.xhtml")) None)) as [Hnone _].
  - by vm_compute.
  - destruct Hnone as [Herror _]; [reflexivity|exact Herror].
Defined.

(** What the reader loads for [danglingItemref] and for a package with a
    cover page. *)
Example mount_of_danglingItemref :
  Root.componentDidMount None (parseSpine danglingItemref)
  = ([Root.SetUri (Some (Str (js "x.html")));
      Root.NewPaginator [Str (js "x.html"); Member (js "constructor")];
      Root.Load (Some (Str (js "x.html"))); Root.ListenToKeys], None).
Proof. by vm_compute. Qed.
